(** * F407_M4 melody tools: a shallow embedding of [tools/midi_to_buzzer.py]
    and [tools/simplify_header.py]

    The two scripts turn a MIDI file into a short monophonic list of
    [(frequency, duration)] records for a buzzer and write it as a C header.

    Python integers are modelled by [Z] and exceptions by the [result] type.
    Python floats are modelled by exact rationals [Q].  A quotient of two
    integers is correctly rounded by Python, so with an integer unit
    ([simplify_header]) and durations below [2^52] the double and the exact
    quotient round to the same integer, and so do the two divisions of
    [ticks_to_ms] while [ticks * tempo] and [ticks_per_beat] stay below
    [2^50]; statements about values carry these bounds.  With a fractional
    unit ([midi_to_buzzer]) the rationals idealise the doubles, and what
    holds of the three passes whatever the arithmetic gives is stated over
    the module [Passes], where that arithmetic is a parameter.
    [note_to_freq], a power with a fractional exponent, stays a
    parameter. *)

From Stdlib Require Import ZArith QArith Qround Lia List Ascii String.
From Stdlib Require Import DecimalString DecimalN Lqa.
From stdpp Require Import base option list gmap.

Import ListNotations.
Local Open Scope Z_scope.

(** ** Python exceptions *)

Inductive exn : Set :=
| ZeroDivisionError
| ValueError
| KeyError.

Inductive result (A : Type) : Type :=
| Ok (a : A)
| Raise (e : exn).

Arguments Ok {A} a.
Arguments Raise {A} e.

Definition rbind {A B : Type} (r : result A) (k : A -> result B) : result B :=
  match r with
  | Ok a => k a
  | Raise e => Raise e
  end.

Notation "'let*' x ':=' r 'in' k" := (rbind r (fun x => k))
  (at level 10, x pattern, r at level 100, k at level 200).

(** A [for] loop whose body may raise: the accumulator is threaded from left
    to right and the first exception ends the loop. *)
Fixpoint for_each {A S : Type} (body : S -> A -> result S) (xs : list A) (s : S)
  : result S :=
  match xs with
  | [] => Ok s
  | x :: xs' => let* s' := body s x in for_each body xs' s'
  end.

(** ** Python numerics *)

Module PyNum.

(** [round(x)] on a float: nearest integer, exact ties to the even one. *)
Definition py_round (x : Q) : Z :=
  let f := Qfloor x in
  match (x - inject_Z f ?= 1 # 2)%Q with
  | Lt => f
  | Gt => f + 1
  | Eq => if Z.even f then f else f + 1
  end.

(** [int(x)] on a float: truncation toward zero. *)
Definition py_int (x : Q) : Z := Z.quot (Qnum x) (Z.pos (Qden x)).

(** [a / b]: true division, raising on a zero divisor. *)
Definition py_truediv (a b : Q) : result Q :=
  if Qeq_bool b 0 then Raise ZeroDivisionError else Ok (a / b)%Q.

(** [l[-1]]: the last element, when there is one. *)
Definition py_last {A : Type} (l : list A) : option A := last l.

(** [l[-1] = x] on a non-empty list. *)
Definition set_last {A : Type} (l : list A) (x : A) : list A :=
  <[Nat.pred (length l) := x]> l.

(** The position a slice bound [k] denotes in a list of length [len]:
    negative bounds count from the end, and everything is clamped. *)
Definition slice_bound (len : nat) (k : Z) : nat :=
  if k <? 0 then Z.to_nat (Z.max 0 (k + Z.of_nat len))
  else Z.to_nat (Z.min k (Z.of_nat len)).

(** [l[:k]] and [l[k:]]. *)
Definition slice_to {A : Type} (l : list A) (k : Z) : list A :=
  take (slice_bound (length l) k) l.

Definition slice_from {A : Type} (l : list A) (k : Z) : list A :=
  drop (slice_bound (length l) k) l.

End PyNum.

(** ** The quantizer: [simplify_notes] *)

Module Quantizer.
Import PyNum.

(** A note is [(freq, duration_ms)]; [freq = 0] is a rest. *)
Definition Note : Type := Z * Z.

(** [sum(d for _, d in l)]. *)
Definition sum_durations (l : list Note) : Z :=
  fold_right Z.add 0 (map snd l).

(** Pass 1: merge neighbours of equal frequency. *)
Definition merge_step (merged : list Note) (n : Note) : list Note :=
  let '(f, d) := n in
  match py_last merged with
  | Some (lf, ld) =>
      if lf =? f then set_last merged (f, ld + d) else merged ++ [(f, d)]
  | None => merged ++ [(f, d)]
  end.

Definition merge (notes : list Note) : list Note :=
  fold_left merge_step notes [].

(** The quantized duration [d2] of one merged duration [d]. *)
Definition quantize (unit : Q) (d : Z) : result Z :=
  let* x := py_truediv (inject_Z d) unit in
  let q := py_round x in
  let q := if q <=? 0 then 1 else q in
  Ok (py_int (inject_Z q * unit)%Q).

(** Pass 2: quantize, and fold too-short entries into the previous one. *)
Definition quant_step (unit : Q) (min_ms : Z) (quant : list Note) (n : Note)
  : result (list Note) :=
  let '(f, d) := n in
  let* d2 := quantize unit d in
  if d2 <? min_ms then
    match py_last quant with
    | Some (lf, ld) => Ok (set_last quant (lf, ld + d2))
    | None => Ok (quant ++ [(0, d2)])
    end
  else Ok (quant ++ [(f, d2)]).

(** Pass 3: bound the number of entries. *)
Definition cap (max_notes : Z) (quant : list Note) : list Note :=
  if Z.of_nat (length quant) >? max_notes then
    let keep := slice_to quant (max_notes - 1) in
    let tail := slice_from quant (max_notes - 1) in
    let tail_time := sum_durations tail in
    match py_last keep with
    | Some (lastf, lastd) => set_last keep (lastf, lastd + tail_time)
    | None => [(0, tail_time)]
    end
  else quant.

(** The three passes, which the two scripts share word for word once
    [unit] is known. *)
Definition passes (notes : list Note) (unit : Q) (min_ms max_notes : Z)
  : result (list Note) :=
  let merged := merge notes in
  let* quant := for_each (quant_step unit min_ms) merged [] in
  Ok (cap max_notes quant).

End Quantizer.

(** [simplify_header.simplify_notes(notes, unit_ms, min_ms, max_notes)]. *)
Module SimplifyHeader.
Import Quantizer.

Definition simplify_notes (notes : list Note) (unit_ms min_ms max_notes : Z)
  : result (list Note) :=
  match notes with
  | [] => Ok []
  | _ => passes notes (inject_Z unit_ms) min_ms max_notes
  end.

End SimplifyHeader.

(** [midi_to_buzzer.simplify_notes(notes, quarter_ms, denom, min_ms, max_notes)]. *)
Module MidiToBuzzer.
Import PyNum Quantizer.

Definition simplify_notes (notes : list Note) (quarter_ms : Q)
    (denom min_ms max_notes : Z) : result (list Note) :=
  match notes with
  | [] => Ok []
  | _ =>
      let* unit := py_truediv quarter_ms (inject_Z denom) in
      passes notes unit min_ms max_notes
  end.

End MidiToBuzzer.

(** ** The three passes with the float arithmetic left open

    Lines 73-76 of [simplify_header.py] and 239-242 of [midi_to_buzzer.py]
    turn a merged duration [d] into its quantized duration [d2] by float
    arithmetic: [q = int(round(d / unit))], [q = 1] when [q <= 0], and
    [d2 = int(q * unit)].  Here these four lines are the parameter [qz],
    which may raise; all the code around them is that of the two
    [simplify_notes], which read the same from the merge pass on (in
    [midi_to_buzzer] the unit is computed on line 226, before the merge
    pass). *)

Module Passes.
Import PyNum Quantizer.

(** Pass 2 around [qz]: the short entries are folded into the entry kept
    last, or become a rest when nothing is kept yet. *)
Definition quant_step_with (qz : Z -> result Z) (min_ms : Z) (quant : list Note)
    (n : Note) : result (list Note) :=
  let '(f, d) := n in
  let* d2 := qz d in
  if d2 <? min_ms then
    match py_last quant with
    | Some (lf, ld) => Ok (set_last quant (lf, ld + d2))
    | None => Ok (quant ++ [(0, d2)])
    end
  else Ok (quant ++ [(f, d2)]).

Definition passes_with (qz : Z -> result Z) (notes : list Note)
    (min_ms max_notes : Z) : result (list Note) :=
  let merged := merge notes in
  let* quant := for_each (quant_step_with qz min_ms) merged [] in
  Ok (cap max_notes quant).

(** [simplify_notes] from its first line on, for a unit that is known. *)
Definition simplify_notes_with (qz : Z -> result Z) (notes : list Note)
    (min_ms max_notes : Z) : result (list Note) :=
  match notes with
  | [] => Ok []
  | _ => passes_with qz notes min_ms max_notes
  end.

End Passes.

(** ** Vocabulary of the quantizer's specification *)

Module QuantizerSpec.
Import PyNum Quantizer.

(** The quantized duration as a total function, for a non-zero unit. *)
Definition quantum (unit : Q) (d : Z) : Z :=
  let q := py_round (inject_Z d / unit)%Q in
  py_int (inject_Z (if q <=? 0 then 1 else q) * unit)%Q.


(** Total of the quantized durations of the merged events. *)
Definition quantized_total (unit : Q) (merged : list Note) : Z :=
  fold_right Z.add 0 (map (fun n => quantum unit (snd n)) merged).

(** Total of the quantized durations of the merged events, for a
    quantization [q] of one duration. *)
Definition total_of (q : Z -> Z) (merged : list Note) : Z :=
  fold_right Z.add 0 (map (fun n => q (snd n)) merged).


(** No two neighbours carry the same frequency. *)
Fixpoint no_adjacent_eq (l : list Note) : Prop :=
  match l with
  | a :: (b :: _) as t => fst a <> fst b /\ no_adjacent_eq t
  | _ => True
  end.

(** Positive multiples of an integer unit [u], on [Z]. *)
Definition pm (u d : Z) : Prop := exists k, 0 < k /\ d = k * u.

Definition all_pm (u : Z) (l : list Note) : Prop := Forall (fun n => pm u (snd n)) l.

(** The shape pass 2 gives its output: every entry but the first lasts at
    least [m], and a first entry that lasts less is a rest. *)
Definition kept_shape (m : Z) (l : list Note) : Prop :=
  (forall f d, head l = Some (f, d) -> f = 0 \/ m <= d) /\
  Forall (fun n => m <= snd n) (tail l).

(** What pass 2 maintains, step by step, for an integer unit [u]. *)
Definition quant_inv (u m : Z) (l : list Note) : Prop :=
  l <> [] /\ all_pm u l /\ kept_shape m l.

End QuantizerSpec.


(** ** Tick to millisecond conversion: [ticks_to_ms] *)

Module Tempo.
Import PyNum.

Definition default_tempo : Z := 500000.

Definition ticks_to_ms (ticks : Z) (tempo : option Z) (ticks_per_beat : Z)
  : result Z :=
  let tempo := match tempo with None => default_tempo | Some t => t end in
  let* micros := py_truediv (inject_Z (ticks * tempo)) (inject_Z ticks_per_beat) in
  Ok (py_round (micros / 1000)%Q).

End Tempo.

(** ** The monophonic reducer: [extract_monophonic] *)

Module Reducer.
Import PyNum.

(** A [mido] message; [time] is the delta to the previous message of the
    track.  Messages of any other type only carry their time. *)
Inductive Msg : Set :=
| note_on (time note velocity : Z)
| note_off (time note velocity : Z)
| set_tempo (time tempo : Z)
| other_msg (time : Z).

Definition msg_time (m : Msg) : Z :=
  match m with
  | note_on t _ _ | note_off t _ _ | set_tempo t _ | other_msg t => t
  end.

Record MidiFile : Set := {
  ticks_per_beat : Z;
  tracks : list (list Msg)
}.

(** A closed interval [(note, start_tick, end_tick, velocity)]. *)
Definition Interval : Type := Z * Z * Z * Z.

Definition iv_note (x : Interval) : Z := let '(n, _, _, _) := x in n.
Definition iv_start (x : Interval) : Z := let '(_, s, _, _) := x in s.
Definition iv_end (x : Interval) : Z := let '(_, _, e, _) := x in e.
Definition iv_vel (x : Interval) : Z := let '(_, _, _, v) := x in v.

(** [list.sort(key=...)] and [sorted]: a stable sort on an integer key. *)
Fixpoint insert_by {A : Type} (key : A -> Z) (x : A) (l : list A) : list A :=
  match l with
  | [] => [x]
  | y :: l' => if key x <=? key y then x :: l else y :: insert_by key x l'
  end.

Fixpoint sort_by {A : Type} (key : A -> Z) (l : list A) : list A :=
  match l with
  | [] => []
  | x :: l' => insert_by key x (sort_by key l')
  end.

(** Step 1: absolute ticks per track, all tracks together, sorted by tick. *)
Fixpoint with_abs_ticks (abs_ticks : Z) (track : list Msg) : list (Z * Msg) :=
  match track with
  | [] => []
  | msg :: rest =>
      let abs_ticks := abs_ticks + msg_time msg in
      (abs_ticks, msg) :: with_abs_ticks abs_ticks rest
  end.

Definition merged_events (mid : MidiFile) : list (Z * Msg) :=
  sort_by fst (concat (map (with_abs_ticks 0) (tracks mid))).

(** Step 2: the loop over the events.  The state is the tempo seen last, the
    table of sounding notes and the intervals closed so far. *)
Record LoopState : Type := {
  tempo : Z;
  active : gmap Z (Z * Z);
  results : list Interval
}.

Definition initial_state : LoopState :=
  {| tempo := Tempo.default_tempo; active := ∅; results := [] |}.

Definition close_note (st : LoopState) (abs_tick note : Z) : LoopState :=
  match active st !! note with
  | Some (start_tick, vel) =>
      {| tempo := tempo st;
         active := delete note (active st);
         results := results st ++ [(note, start_tick, abs_tick, vel)] |}
  | None => st
  end.

Definition event_step (st : LoopState) (ev : Z * Msg) : LoopState :=
  let '(abs_tick, msg) := ev in
  let st :=
    match msg with
    | set_tempo _ t =>
        {| tempo := t; active := active st; results := results st |}
    | _ => st
    end in
  match msg with
  | note_on _ note velocity =>
      if velocity >? 0 then
        {| tempo := tempo st;
           active := <[note := (abs_tick, velocity)]> (active st);
           results := results st |}
      else if velocity =? 0 then close_note st abs_tick note
      else st
  | note_off _ note _ => close_note st abs_tick note
  | _ => st
  end.

Definition run_events (evs : list (Z * Msg)) : LoopState :=
  fold_left event_step evs initial_state.

(** Step 3: group by start tick and keep one interval per group. *)
Definition group_step (by_start : gmap Z (list Interval)) (x : Interval)
  : gmap Z (list Interval) :=
  let s := iv_start x in
  <[s := default [] (by_start !! s) ++ [x]]> by_start.

Definition group_by_start (res : list Interval) : gmap Z (list Interval) :=
  fold_left group_step res ∅.

(** The key [(velocity, note)] compared as Python compares tuples. *)
Definition key_lt (a b : Interval) : bool :=
  (iv_vel a <? iv_vel b) || ((iv_vel a =? iv_vel b) && (iv_note a <? iv_note b)).

(** [max(group, key=...)]: the first of the greatest; raises on no element. *)
Definition py_max (group : list Interval) : result Interval :=
  match group with
  | [] => Raise ValueError
  | x :: rest => Ok (fold_left (fun best y => if key_lt best y then y else best) rest x)
  end.

Definition choose (by_start : gmap Z (list Interval)) (timeline : list Interval)
    (s : Z) : result (list Interval) :=
  match by_start !! s with
  | None => Raise KeyError
  | Some group => let* chosen := py_max group in Ok (timeline ++ [chosen])
  end.

Definition build_timeline (res : list Interval) : result (list Interval) :=
  let res := sort_by iv_start res in
  let by_start := group_by_start res in
  let keys := sort_by id (map fst (map_to_list by_start)) in
  let* timeline := for_each (choose by_start) keys [] in
  Ok (sort_by iv_start timeline).

Definition timeline_of (mid : MidiFile) : result (list Interval) :=
  build_timeline (results (run_events (merged_events mid))).

Definition extract_monophonic (mid : MidiFile)
  : result (list (Z * Z * Z) * Z * Z) :=
  let st := run_events (merged_events mid) in
  let* timeline := build_timeline (results st) in
  let output := map (fun x => (iv_note x, iv_start x, iv_end x)) timeline in
  Ok (output, tempo st, ticks_per_beat mid).

End Reducer.

(** ** The duration compiler: [build_note_array] *)

Module Compiler.
Import PyNum Quantizer.

(** [note_to_freq] is [int(round(440.0 * 2 ** ((n - 69) / 12.0)))]: a power
    with a fractional exponent, kept as a parameter of the compiler. *)
Definition note_step (note_to_freq : Z -> Z) (tempo : option Z) (ticks_per_beat : Z)
    (st : list Note * Z) (ev : Z * Z * Z) : result (list Note * Z) :=
  let '(notes, current_tick) := st in
  let '(note, s, e) := ev in
  let* notes :=
    if s >? current_tick then
      let* rest_ms := Tempo.ticks_to_ms (s - current_tick) tempo ticks_per_beat in
      if rest_ms >? 0 then Ok (notes ++ [(0, rest_ms)]) else Ok notes
    else Ok notes in
  let* dur_ms := Tempo.ticks_to_ms (e - s) tempo ticks_per_beat in
  let freq := note_to_freq note in
  Ok (notes ++ [(freq, dur_ms)], e).

Definition build_note_array (note_to_freq : Z -> Z) (events : list (Z * Z * Z))
    (tempo : option Z) (ticks_per_beat : Z) : result (list Note) :=
  match events with
  | [] => Ok []
  | (_, s0, _) :: _ =>
      let* st := for_each (note_step note_to_freq tempo ticks_per_beat) events ([], s0) in
      Ok (fst st)
  end.

(** The first lines of [main]: extract, then build the note array with the
    tempo and resolution that [extract_monophonic] returned. *)
Definition notes_of_midi (note_to_freq : Z -> Z) (mid : Reducer.MidiFile)
  : result (list Note) :=
  let* r := Reducer.extract_monophonic mid in
  let '(events, tempo, tpb) := r in
  build_note_array note_to_freq events (Some tempo) tpb.

End Compiler.

(** ** Vocabulary of the compiler's specification *)

Module CompilerSpec.
Import Quantizer.

(** The compiler in the specification's words: a gap and a tone are each
    converted at the rate that [rate_at] gives for the tick where they
    begin; a gap that rounds to nothing is left out. *)
Fixpoint compile_from (note_to_freq : Z -> Z) (rate_at : Z -> Z) (tpb cursor : Z)
    (events : list (Z * Z * Z)) : result (list Note) :=
  match events with
  | [] => Ok []
  | (note, s, e) :: events' =>
      let* gap :=
        if s >? cursor then
          let* rest_ms := Tempo.ticks_to_ms (s - cursor) (Some (rate_at cursor)) tpb in
          Ok (if rest_ms >? 0 then [(0, rest_ms)] else [])
        else Ok [] in
      let* dur_ms := Tempo.ticks_to_ms (e - s) (Some (rate_at s)) tpb in
      let* more := compile_from note_to_freq rate_at tpb e events' in
      Ok (gap ++ (note_to_freq note, dur_ms) :: more)
  end.

(** The cursor starts where the first segment starts. *)
Definition compile_spec (note_to_freq : Z -> Z) (rate_at : Z -> Z) (tpb : Z)
    (events : list (Z * Z * Z)) : result (list Note) :=
  match events with
  | [] => Ok []
  | (_, s0, _) :: _ => compile_from note_to_freq rate_at tpb s0 events
  end.

End CompilerSpec.

(** ** Vocabulary of the reducer's specification *)

Module ReducerSpec.
Import Reducer.

(** The closed intervals of a file, in the order the loop closes them. *)
Definition closed_intervals (mid : MidiFile) : list Interval :=
  results (run_events (merged_events mid)).

Definition starts_at (s : Z) (x : Interval) : Prop := iv_start x = s.

#[global] Instance starts_at_dec (s : Z) (x : Interval) : Decision (starts_at s x).
Proof. unfold starts_at. apply _. Defined.

(** [w] has the greatest velocity of the group and, among the intervals of
    that velocity, the greatest pitch. *)
Definition beats_all (w : Interval) (group : list Interval) : Prop :=
  forall x, x ∈ group ->
    iv_vel x <= iv_vel w /\ (iv_vel x = iv_vel w -> iv_note x <= iv_note w).

(** [w] is what [max] picks in the group of start tick [k]. *)
Definition winner_of (res : list Interval) (k : Z) (w : Interval) : Prop :=
  py_max (filter (starts_at k) res) = Ok w.

(** The event [ev] is a NoteEnd that closes the interval [x]. *)
Definition closes (ev : Z * Msg) (x : Interval) : Prop :=
  fst ev = iv_end x /\
  match snd ev with
  | note_off _ n _ => n = iv_note x
  | note_on _ n v => v = 0 /\ n = iv_note x
  | _ => False
  end.

End ReducerSpec.

(** ** Vocabulary of the tempo map's specification *)

Module TempoSpec.
Import Reducer.

(** Rounding to the nearest integer, exact ties away from zero. *)
Definition round_half_away (x : Q) : Z :=
  if Qle_bool 0 x then Qfloor (x + (1 # 2)) else Qceiling (x - (1 # 2)).

(** The tempo changes of a stream, in stream order, as [(tick, tempo)]. *)
Definition tempo_changes (evs : list (Z * Msg)) : list (Z * Z) :=
  omap (fun ev => match snd ev with
                  | set_tempo _ t => Some (fst ev, t)
                  | _ => None
                  end) evs.

(** The rate in force at [tick]: the most recent change at or before it. *)
Definition rate_in_force (changes : list (Z * Z)) (tick : Z) : Z :=
  fold_left (fun r c => if fst c <=? tick then snd c else r) changes
    Tempo.default_tempo.

(** The conversion in the specification's words:
    [round(tick_delta * rate / ticks_per_unit)], ties away from zero. *)
Definition time_units_spec (tick_delta rate ticks_per_unit : Z) : Z :=
  round_half_away (inject_Z (tick_delta * rate) / inject_Z ticks_per_unit).

(** The exact number of milliseconds of [ticks] ticks. *)
Definition exact_ms (ticks : Z) (tempo : option Z) (ticks_per_beat : Z) : Q :=
  (inject_Z (ticks * match tempo with None => Tempo.default_tempo | Some t => t end)
   / inject_Z ticks_per_beat / 1000)%Q.

(** The range in which the two float divisions of [ticks_to_ms] round as
    the exact quotient does: the product [ticks * tempo] and the resolution
    are below [2^50] in absolute value, and the resolution is not zero. *)
Definition exact_range (ticks : Z) (tempo : option Z) (ticks_per_beat : Z) : Prop :=
  Z.abs (ticks * match tempo with None => Tempo.default_tempo | Some t => t end)
    < 2 ^ 50 /\
  0 < Z.abs ticks_per_beat < 2 ^ 50.

(** [r] is an integer nearest to [x], and the even one when there are two. *)
Definition nearest_ties_even (x : Q) (r : Z) : Prop :=
  (inject_Z r - (1 # 2) <= x <= inject_Z r + (1 # 2))%Q /\
  ((x == inject_Z r - (1 # 2) \/ x == inject_Z r + (1 # 2))%Q -> Z.even r = true).

(** A file of one track: a note, a tempo change to 1000000, another note. *)
Definition two_tempo_file : MidiFile :=
  {| ticks_per_beat := 480;
     tracks := [[note_on 0 60 100; note_off 480 60 0; set_tempo 0 1000000;
                 note_on 0 62 100; note_off 480 62 0]] |}.

(** The same with a silence of one beat between the notes; the tempo
    changes where the second note starts. *)
Definition gap_tempo_file : MidiFile :=
  {| ticks_per_beat := 480;
     tracks := [[note_on 0 60 100; note_off 480 60 0; set_tempo 480 1000000;
                 note_on 0 62 100; note_off 480 62 0]] |}.

(** The tempo of the last change of the stream, whatever its tick. *)
Definition last_tempo (changes : list (Z * Z)) : Z :=
  match last changes with
  | Some c => snd c
  | None => Tempo.default_tempo
  end.

End TempoSpec.


(** ** Header files: [emit_header] and [parse_header] *)

Module Header.
Import Quantizer.
Local Open Scope string_scope.

Definition newline : ascii := "010"%char.
Definition dquote : ascii := "034"%char.
Definition nl : string := String newline "".

(** [str(n)] of an integer, as an f-string prints it. *)
Definition py_str (n : Z) : string := NilEmpty.string_of_int (Z.to_int n).

(** [int(s)] on a string of decimal digits, all that [\d+] hands over here;
    beyond 4300 digits Python's [int] raises [ValueError], a limit that
    [MoreSpec.plain_text] keeps the lines of a text away from. *)
Definition py_int_of_digits (s : string) : result Z :=
  match NilEmpty.uint_of_string s with
  | Some d => Ok (Z.of_uint d)
  | None => Raise ValueError
  end.

Definition MAX_UINT16 : Z := 65535.

Definition default_guard : string := "BADAPPLE_MELODY_SIMPLE_H".

(** The two [if]s of the loop body: the duration clamped to [0, 0xFFFF]. *)
Definition clamp_duration (dur : Z) : Z :=
  let dur := if (dur <? 0)%Z then 0%Z else dur in
  if (dur >? MAX_UINT16)%Z then MAX_UINT16 else dur.

(** The text one note contributes; the frequency is printed as it is. *)
Definition emit_note (n : Note) : string :=
  let '(freq, dur) := n in
  let dur := clamp_duration dur in
  "  {" ++ py_str freq ++ ", " ++ py_str dur ++ "}," ++ nl.

Definition header_prologue (guard_name : string) : string :=
  "/* Auto-generated simplified melody */" ++ nl ++
  "#ifndef " ++ guard_name ++ nl ++
  "#define " ++ guard_name ++ nl ++ nl ++
  "#include " ++ String dquote "main.h" ++ String dquote "" ++ nl ++ nl ++
  "typedef struct {" ++ nl ++ "    uint16_t freq;" ++ nl ++
  "    uint16_t duration;" ++ nl ++ "} Note_t;" ++ nl ++ nl ++
  "static const Note_t melody[] = {" ++ nl.

Definition header_epilogue (guard_name : string) : string :=
  "};" ++ nl ++ nl ++
  "static const size_t melody_len = sizeof(melody)/sizeof(melody[0]);" ++ nl ++ nl ++
  "#endif /* " ++ guard_name ++ " */" ++ nl.

(** The text [emit_header] writes to the file. *)
Definition emit_header (notes : list Note) (guard_name : string) : string :=
  header_prologue guard_name ++
  fold_right (fun n rest => emit_note n ++ rest) (header_epilogue guard_name) notes.

(** [for line in f]: the lines of a text, each with its line end.  The
    texts read here hold no carriage return, which text mode would turn
    into a line end of its own. *)
Fixpoint lines_from (line : string) (s : string) : list string :=
  match s with
  | "" => match line with "" => [] | _ => [line] end
  | String c s' =>
      if Ascii.eqb c newline then (line ++ nl) :: lines_from "" s'
      else lines_from (line ++ String c "") s'
  end.

Definition lines (s : string) : list string := lines_from "" s.

(** The character classes [\s] and [\d] on ASCII text; in other text
    both hold further Unicode characters. *)
Definition is_space (c : ascii) : bool :=
  let n := nat_of_ascii c in
  ((9 <=? n) && (n <=? 13) || (28 <=? n) && (n <=? 32))%nat.

Definition is_digit (c : ascii) : bool :=
  let n := nat_of_ascii c in ((48 <=? n) && (n <=? 57))%nat.

(** [\s*]: drop the white space in front. *)
Fixpoint skip_spaces (s : string) : string :=
  match s with
  | String c s' => if is_space c then skip_spaces s' else s
  | "" => ""
  end.

(** [(\d+)]: the digits in front and what follows them; none is no match. *)
Fixpoint take_digits (s : string) : string * string :=
  match s with
  | String c s' =>
      if is_digit c then let '(ds, rest) := take_digits s' in (String c ds, rest)
      else ("", s)
  | "" => ("", "")
  end.

Definition digits1 (s : string) : option (string * string) :=
  match take_digits s with
  | ("", _) => None
  | r => Some r
  end.

Definition expect (c : ascii) (s : string) : option string :=
  match s with
  | String c' s' => if Ascii.eqb c c' then Some s' else None
  | "" => None
  end.

(** The pattern [\{\s*(\d+)\s*,\s*(\d+)\s*\},] matched at the front of [s],
    with its two groups.  White space, digits and the three punctuation
    marks are disjoint classes, so each greedy repetition has one way to
    end and no backtracking is lost. *)
Definition match_here (s : string) : option (string * string) :=
  s ← expect "{" s;
  '(g1, s) ← digits1 (skip_spaces s);
  s ← expect "," (skip_spaces s);
  '(g2, s) ← digits1 (skip_spaces s);
  s ← expect "}" (skip_spaces s);
  _ ← expect "," s;
  Some (g1, g2).

(** [pattern.search(line)]: the match at the leftmost position that has one. *)
Fixpoint search (line : string) : option (string * string) :=
  match match_here line with
  | Some m => Some m
  | None =>
      match line with
      | String _ rest => search rest
      | "" => None
      end
  end.

Definition parse_line (notes : list Note) (line : string) : result (list Note) :=
  match search line with
  | Some (g1, g2) =>
      let* freq := py_int_of_digits g1 in
      let* dur := py_int_of_digits g2 in
      Ok (notes ++ [(freq, dur)])%list
  | None => Ok notes
  end.

(** [parse_header] on the text of the file. *)
Definition parse_header (text : string) : result (list Note) :=
  for_each parse_line (lines text) [].

End Header.

(** ** Vocabulary of the header round trip *)

Module HeaderSpec.
Import Header.
Local Open Scope string_scope.

Fixpoint all_digits (s : string) : bool :=
  match s with
  | "" => true
  | String c s' => is_digit c && all_digits s'
  end.

Fixpoint no_newline (s : string) : bool :=
  match s with
  | "" => true
  | String c s' => negb (Ascii.eqb c newline) && no_newline s'
  end.

Fixpoint ends_with_nl (s : string) : bool :=
  match s with
  | "" => false
  | String c "" => Ascii.eqb c newline
  | String _ s' => ends_with_nl s'
  end.

(** [s] does not begin with a digit. *)
Definition no_digit_ahead (s : string) : bool :=
  match s with
  | "" => true
  | String c _ => negb (is_digit c)
  end.

Definition no_match (line : string) : bool :=
  match search line with
  | None => true
  | Some _ => false
  end.

End HeaderSpec.

(** ** The header writer of [midi_to_buzzer]: [emit_c_header] *)

Module MidiHeader.
Import Quantizer Header.
Local Open Scope string_scope.

(** The text one note contributes: nothing for a duration of zero or less,
    and the same record syntax for a rest as for a tone. *)
Definition emit_c_note (n : Note) : string :=
  let '(freq, dur) := n in
  if (dur <=? 0)%Z then ""
  else if (freq =? 0)%Z then "  {0, " ++ py_str dur ++ "}," ++ nl
  else "  {" ++ py_str freq ++ ", " ++ py_str dur ++ "}," ++ nl.

Definition c_header_prologue : string :=
  "/* Auto-generated by tools/midi_to_buzzer.py */" ++ nl ++
  "#ifndef BADAPPLE_MELODY_H" ++ nl ++
  "#define BADAPPLE_MELODY_H" ++ nl ++ nl ++
  "#include " ++ String dquote "main.h" ++ String dquote "" ++ nl ++ nl ++
  "typedef struct {" ++ nl ++ "    uint16_t freq;" ++ nl ++
  "    uint16_t duration;" ++ nl ++ "} Note_t;" ++ nl ++ nl ++
  "static const Note_t melody[] = {" ++ nl.

Definition c_header_epilogue : string :=
  "};" ++ nl ++ nl ++
  "static const size_t melody_len = sizeof(melody)/sizeof(melody[0]);" ++ nl ++ nl ++
  "#endif /* BADAPPLE_MELODY_H */" ++ nl.

(** The text [emit_c_header] writes to the file. *)
Definition emit_c_header (notes : list Note) : string :=
  c_header_prologue ++
  fold_right (fun n rest => emit_c_note n ++ rest) c_header_epilogue notes.

End MidiHeader.

(** ** The driver of [simplify_header]: [main] *)

Module SimplifyHeaderMain.
Import PyNum Quantizer Header.

(** The quantization unit [main] estimates from the parsed durations: half
    the upper median of the positive ones, rounded, and 128 when there is
    none.  The index [len // 2] lies inside the non-empty sorted list. *)
Definition estimate_unit (notes : list Note) : Z :=
  let durs := filter (fun d => 0 < d) (map snd notes) in
  match durs with
  | [] => 128
  | _ =>
      let durs_sorted := Reducer.sort_by id durs in
      let q := default 0 (durs_sorted !! (length durs_sorted / 2)%nat) * 4 in
      py_round (inject_Z q / 8)
  end.

(** [main] from the text of the input header to the text it writes. *)
Definition main (text : string) : result string :=
  let* notes := parse_header text in
  let unit := estimate_unit notes in
  let* simple := SimplifyHeader.simplify_notes notes unit 80 300 in
  Ok (emit_header simple default_guard).

End SimplifyHeaderMain.

(** ** Vocabulary of the further properties *)

Module MoreSpec.
Import Quantizer Reducer.

(** No negative duration, and the shape of [QuantizerSpec.kept_shape]. *)
Definition shape_inv (m : Z) (l : list Note) : Prop :=
  Forall (fun n => 0 <= snd n) l /\ QuantizerSpec.kept_shape m l.

(** Sorted by an integer key: every element is at most all later ones. *)
Fixpoint sorted_by {A : Type} (key : A -> Z) (l : list A) : Prop :=
  match l with
  | [] => True
  | x :: t => Forall (fun y => key x <= key y) t /\ sorted_by key t
  end.

(** The event [ev] is a NoteStart that opens the interval [x]. *)
Definition opens (ev : Z * Msg) (x : Interval) : Prop :=
  fst ev = iv_start x /\
  match snd ev with
  | note_on _ n v => 0 < v /\ n = iv_note x /\ v = iv_vel x
  | _ => False
  end.

(** What the event loop keeps true once it has processed the events [seen],
    the last of them at tick [t0] or before: a sounding note was started, with
    its velocity, by a NoteStart that was seen, and every closed interval
    ends no earlier than it starts and was opened by such a NoteStart. *)
Definition loop_inv (seen : list (Z * Msg)) (t0 : Z) (st : LoopState) : Prop :=
  (forall n s v, active st !! n = Some (s, v) ->
     s <= t0 /\ 0 < v /\ exists tm, (s, note_on tm n v) ∈ seen) /\
  (forall x, x ∈ results st ->
     iv_start x <= iv_end x /\
     exists ev, ev ∈ seen /\ opens ev x).

(** Strictly increasing integers. *)
Fixpoint increasing (l : list Z) : Prop :=
  match l with
  | a :: (b :: _) as t => a < b /\ increasing t
  | _ => True
  end.

(** Every segment starts at or before the cursor the one before it left. *)
Fixpoint no_gap_from (cursor : Z) (events : list (Z * Z * Z)) : Prop :=
  match events with
  | [] => True
  | (_, s, e) :: rest => s <= cursor /\ no_gap_from e rest
  end.

(** The tone [build_note_array] emits for one segment. *)
Definition tone_of (note_to_freq : Z -> Z) (tempo : option Z) (tpb : Z)
    (ev : Z * Z * Z) : Note :=
  let '(note, s, e) := ev in
  (note_to_freq note, PyNum.py_round (TempoSpec.exact_ms (e - s) tempo tpb)).

(** A timeline in which no segment starts after the end of the one before. *)
Definition gapless (events : list (Z * Z * Z)) : Prop :=
  match events with
  | [] => True
  | (_, s0, _) :: _ => no_gap_from s0 events
  end.

(** A text without an opening brace. *)
Fixpoint no_brace (s : string) : bool :=
  match s with
  | EmptyString => true
  | String c s' => negb (Ascii.eqb c "{"%char) && no_brace s'
  end.

(** One record line of either header writer. *)
Definition record_line (freq dur : Z) : string :=
  ("  {" ++ Header.py_str freq ++ ", " ++ Header.py_str dur ++ "}," ++ Header.nl)%string.

(** What [emit_header] makes of a note before it prints it. *)
Definition clamp_note (n : Note) : Note := (fst n, Header.clamp_duration (snd n)).

(** A record that [parse_header] can read back: no sign in front of the
    frequency. *)
Definition readable (n : Note) : Prop := 0 <= fst n.

#[global] Instance readable_dec (n : Note) : Decision (readable n).
Proof. unfold readable. apply _. Defined.

(** A record that [emit_c_header] writes and [parse_header] can read back. *)
Definition written (n : Note) : Prop := 0 <= fst n /\ 0 < snd n.

#[global] Instance written_dec (n : Note) : Decision (written n).
Proof. unfold written. apply _. Defined.

(** A character of a plain header: a printable ASCII character, a tab or
    a line feed.  Such a text is its own UTF-8 decoding, has no carriage
    return for text mode to translate, and [\s] and [\d] see in it only
    the ASCII white space and the digits [0-9]. *)
Definition plain_char (c : ascii) : bool :=
  let n := nat_of_ascii c in
  ((n =? 9) || (n =? 10) || ((32 <=? n) && (n <=? 126)))%nat.

Fixpoint all_plain (s : string) : bool :=
  match s with
  | EmptyString => true
  | String c s' => plain_char c && all_plain s'
  end.

(** The default limit of [int] on the digits of a string it converts. *)
Definition max_str_digits : nat := 4300.

(** A plain text whose lines are short enough for [int] to convert every
    group of digits the pattern can capture in them. *)
Definition plain_text (text : string) : bool :=
  all_plain text &&
  forallb (fun line => (String.length line <=? max_str_digits)%nat) (Header.lines text).

End MoreSpec.

(** * Properties of the quantizer *)

Section ListEnds.
Context {A : Type}.
Import PyNum.

Lemma snoc_cases (l : list A) : l = [] \/ exists l' y, l = l' ++ [y].
Proof.
  induction l as [|x l IH] using rev_ind; [now left | right; eauto].
Qed.

Lemma py_last_snoc (l : list A) (y : A) : py_last (l ++ [y]) = Some y.
Proof. unfold py_last. apply last_snoc. Qed.

Lemma py_last_None (l : list A) : py_last l = None -> l = [].
Proof.
  destruct (snoc_cases l) as [->|(l' & y & ->)]; [reflexivity|].
  rewrite py_last_snoc. discriminate.
Qed.

Lemma py_last_Some (l : list A) (y : A) :
  py_last l = Some y -> exists l', l = l' ++ [y].
Proof.
  destruct (snoc_cases l) as [->|(l' & z & ->)]; [discriminate|].
  rewrite py_last_snoc. intros [= ->]. eauto.
Qed.

Lemma set_last_snoc (l : list A) (x y : A) : set_last (l ++ [y]) x = l ++ [x].
Proof.
  unfold set_last. rewrite length_app, Nat.add_1_r. simpl.
  rewrite insert_app_r_alt by lia. now rewrite Nat.sub_diag.
Qed.

Lemma set_last_length (l : list A) (x : A) : length (set_last l x) = length l.
Proof. unfold set_last. apply length_insert. Qed.

Lemma slices_partition (l : list A) (k : Z) : slice_to l k ++ slice_from l k = l.
Proof. unfold slice_to, slice_from. apply take_drop. Qed.

Lemma slice_to_length (l : list A) (k : Z) :
  0 <= k <= Z.of_nat (length l) -> Z.of_nat (length (slice_to l k)) = k.
Proof.
  intros Hk. unfold slice_to, slice_bound. rewrite length_take.
  destruct (k <? 0) eqn:E; [apply Z.ltb_lt in E; lia|]. lia.
Qed.

End ListEnds.

Section ForEach.
Context {A S : Type} (body : S -> A -> result S).

(** A loop whose body never raises and keeps [P] ends in a state with [P]. *)
Lemma for_each_invariant (P : S -> Prop) (xs : list A) :
  (forall s x, P s -> exists s', body s x = Ok s' /\ P s') ->
  forall s, P s -> exists out, for_each body xs s = Ok out /\ P out.
Proof.
  intros Hstep. induction xs as [|x xs IH]; intros s Hs; simpl.
  - eauto.
  - destruct (Hstep s x Hs) as (s' & -> & Hs'). simpl. now apply IH.
Qed.

Lemma for_each_raises_at_once (e : exn) (x : A) (xs : list A) (s : S) :
  body s x = Raise e -> for_each body (x :: xs) s = Raise e.
Proof. intros H. simpl. now rewrite H. Qed.

End ForEach.

Section QuantizerFacts.
Import PyNum Quantizer QuantizerSpec.

Lemma sum_durations_app (a b : list Note) :
  sum_durations (a ++ b) = sum_durations a + sum_durations b.
Proof.
  unfold sum_durations. induction a as [|[f d] a IH]; simpl; [reflexivity|].
  rewrite IH. lia.
Qed.

Lemma quantize_ok (unit : Q) (d : Z) :
  ~ (unit == 0)%Q -> quantize unit d = Ok (quantum unit d).
Proof.
  intros Hu. unfold quantize, py_truediv.
  destruct (Qeq_bool unit 0) eqn:E.
  - apply Qeq_bool_iff in E. contradiction.
  - reflexivity.
Qed.

Lemma quantize_zero (unit : Q) (d : Z) :
  (unit == 0)%Q -> quantize unit d = Raise ZeroDivisionError.
Proof.
  intros Hu. unfold quantize, py_truediv.
  apply Qeq_bool_iff in Hu. now rewrite Hu.
Qed.

Lemma inject_Z_nonzero (u : Z) : u <> 0 -> ~ (inject_Z u == 0)%Q.
Proof. intros Hu H. apply Hu. unfold Qeq in H. simpl in H. lia. Qed.

Lemma Qdiv_nonzero (a b : Q) : ~ (a == 0)%Q -> ~ (b == 0)%Q -> ~ (a / b == 0)%Q.
Proof.
  intros Ha Hb H. apply Ha.
  rewrite <- (Qmult_div_r a b Hb), H. apply Qmult_0_r.
Qed.

(** One step of pass 2 adds exactly the quantized duration to the total. *)
Lemma quant_step_sum (unit : Q) (min_ms : Z) (quant : list Note) (n : Note) :
  ~ (unit == 0)%Q ->
  exists out, quant_step unit min_ms quant n = Ok out /\
    sum_durations out = sum_durations quant + quantum unit (snd n).
Proof.
  intros Hu. destruct n as [f d]. unfold quant_step.
  rewrite (quantize_ok _ _ Hu). simpl.
  destruct (quantum unit d <? min_ms).
  - destruct (py_last quant) as [[lf ld]|] eqn:E.
    + apply py_last_Some in E as [l' ->]. eexists; split; [reflexivity|].
      rewrite set_last_snoc, !sum_durations_app. unfold sum_durations. simpl. lia.
    + eexists; split; [reflexivity|].
      rewrite sum_durations_app. unfold sum_durations. simpl. lia.
  - eexists; split; [reflexivity|].
    rewrite sum_durations_app. unfold sum_durations. simpl. lia.
Qed.

Lemma quant_pass_sum (unit : Q) (min_ms : Z) (merged acc : list Note) :
  ~ (unit == 0)%Q ->
  exists out, for_each (quant_step unit min_ms) merged acc = Ok out /\
    sum_durations out = sum_durations acc + quantized_total unit merged.
Proof.
  intros Hu. revert acc. induction merged as [|n merged IH]; intros acc; simpl.
  - eexists; split; [reflexivity|]. unfold quantized_total. simpl. lia.
  - destruct (quant_step_sum unit min_ms acc n Hu) as (s' & -> & Hs'). simpl.
    destruct (IH s') as (out & -> & Hout). eexists; split; [reflexivity|].
    unfold quantized_total in *. simpl. lia.
Qed.

(** Pass 3 moves durations around but loses none, whatever the bound. *)
Lemma cap_sum (max_notes : Z) (quant : list Note) :
  sum_durations (cap max_notes quant) = sum_durations quant.
Proof.
  unfold cap. destruct (Z.of_nat (length quant) >? max_notes); [|reflexivity].
  pose proof (slices_partition quant (max_notes - 1)) as HP.
  set (keep := slice_to quant (max_notes - 1)) in *.
  set (tail := slice_from quant (max_notes - 1)) in *.
  assert (sum_durations quant = sum_durations keep + sum_durations tail) as ->
    by now rewrite <- sum_durations_app, HP.
  destruct (py_last keep) as [[lf ld]|] eqn:E.
  - apply py_last_Some in E as [l' ->]. rewrite set_last_snoc.
    rewrite !sum_durations_app.
    change (sum_durations [(lf, ld + sum_durations tail)])
      with (ld + sum_durations tail + 0).
    change (sum_durations [(lf, ld)]) with (ld + 0). lia.
  - apply py_last_None in E. rewrite E.
    change (sum_durations [(0, sum_durations tail)]) with (sum_durations tail + 0).
    change (sum_durations []) with 0. lia.
Qed.

Lemma passes_sum (notes : list Note) (unit : Q) (min_ms max_notes : Z) :
  ~ (unit == 0)%Q ->
  exists out, passes notes unit min_ms max_notes = Ok out /\
    sum_durations out = quantized_total unit (merge notes).
Proof.
  intros Hu. unfold passes.
  destruct (quant_pass_sum unit min_ms (merge notes) [] Hu) as (q & -> & Hq).
  simpl. eexists; split; [reflexivity|]. rewrite cap_sum, Hq. reflexivity.
Qed.

End QuantizerFacts.

(** ** Integer units: multiples of the unit and stability under a second pass *)

Section IntegerUnit.
Import PyNum Quantizer QuantizerSpec.


Lemma py_round_comp (x y : Q) : (x == y)%Q -> py_round x = py_round y.
Proof.
  intros H. unfold py_round. rewrite (Qfloor_comp _ _ H).
  assert (E : (x - inject_Z (Qfloor y) ?= 1 # 2)%Q = (y - inject_Z (Qfloor y) ?= 1 # 2)%Q).
  { apply Qcompare_comp; [now rewrite H | reflexivity]. }
  now rewrite E.
Qed.

Lemma py_round_inject_Z (k : Z) : py_round (inject_Z k) = k.
Proof.
  unfold py_round. rewrite Qfloor_Z.
  assert (E : (inject_Z k - inject_Z k ?= 1 # 2)%Q = Lt).
  { assert (E0 : (inject_Z k - inject_Z k == 0)%Q) by ring.
    now rewrite (Qcompare_comp _ _ E0 _ _ (Qeq_refl (1 # 2))). }
  now rewrite E.
Qed.

Lemma py_int_product (a b : Z) : py_int (inject_Z a * inject_Z b) = a * b.
Proof. unfold py_int. simpl. apply Z.quot_1_r. Qed.

Variable u : Z.
Hypothesis u_pos : 0 < u.


Lemma pm_pos (d : Z) : pm u d -> 0 < d.
Proof. intros (k & Hk & ->). nia. Qed.

Lemma pm_add (a b : Z) : pm u a -> pm u b -> pm u (a + b).
Proof. intros (k & Hk & ->) (j & Hj & ->). exists (k + j). split; lia. Qed.

Lemma quantum_pm (d : Z) : pm u (quantum (inject_Z u) d).
Proof.
  unfold quantum. cbv zeta. rewrite py_int_product.
  destruct (Z.leb_spec (py_round (inject_Z d / inject_Z u)) 0).
  - exists 1. lia.
  - eexists; split; [eassumption | reflexivity].
Qed.

Lemma quantum_fixes_multiples (d : Z) : pm u d -> quantum (inject_Z u) d = d.
Proof.
  intros (k & Hk & ->). unfold quantum. cbv zeta.
  assert (E : py_round (inject_Z (k * u) / inject_Z u) = k).
  { rewrite <- (py_round_inject_Z k) at 2. apply py_round_comp.
    rewrite inject_Z_mult. apply Qdiv_mult_l. apply inject_Z_nonzero. lia. }
  rewrite E. destruct (Z.leb_spec k 0); [lia|]. apply py_int_product.
Qed.

Lemma kept_shape_snoc (m : Z) (l : list Note) (f d : Z) :
  kept_shape m l -> m <= d -> kept_shape m (l ++ [(f, d)]).
Proof.
  intros [Hh Ht] Hd. destruct l as [|a l]; simpl.
  - split; [|constructor]. intros f' d' [= -> ->]. now right.
  - split; [exact Hh|]. simpl in Ht. apply Forall_app. split; [exact Ht|].
    now constructor.
Qed.

Lemma kept_shape_grow_last (m : Z) (l : list Note) (f d t : Z) :
  kept_shape m (l ++ [(f, d)]) -> 0 <= t -> kept_shape m (l ++ [(f, d + t)]).
Proof.
  intros [Hh Ht] Hd. destruct l as [|a l]; simpl in *.
  - split; [|constructor]. intros f' d' [= <- <-].
    destruct (Hh f d eq_refl); [now left | right; lia].
  - split; [exact Hh|]. apply Forall_app in Ht as [Ht1 Ht2].
    apply Forall_app. split; [exact Ht1|]. constructor; [|constructor].
    apply Forall_inv in Ht2. simpl in *. lia.
Qed.

Lemma kept_shape_prefix (m : Z) (a b : list Note) :
  kept_shape m (a ++ b) -> kept_shape m a.
Proof.
  intros [Hh Ht]. destruct a as [|x a]; simpl in *.
  - split; [discriminate | constructor].
  - split; [exact Hh|]. now apply Forall_app in Ht as [Ht _].
Qed.

Lemma all_pm_sum (l : list Note) :
  all_pm u l -> exists k, 0 <= k /\ sum_durations l = k * u /\ (l <> [] -> 0 < k).
Proof.
  unfold all_pm, sum_durations. induction 1 as [|[f d] l (j & Hj & E) _ (k & Hk & IH & _)]; simpl.
  - exists 0. split; [lia|]. split; [lia | intros H; now contradiction H].
  - simpl in E. exists (j + k). split; [lia|]. split; lia.
Qed.

Lemma quant_step_inv (m : Z) (quant : list Note) (n : Note) :
  quant = [] \/ quant_inv u m quant ->
  exists out, quant_step (inject_Z u) m quant n = Ok out /\ quant_inv u m out.
Proof.
  intros Hq. destruct n as [f d]. unfold quant_step.
  rewrite quantize_ok by (apply inject_Z_nonzero; lia). simpl.
  pose proof (quantum_pm d) as Hd2. set (d2 := quantum (inject_Z u) d) in *.
  destruct (Z.ltb_spec d2 m) as [Hlt|Hge].
  - destruct (py_last quant) as [[lf ld]|] eqn:E.
    + apply py_last_Some in E as [l' ->]. rewrite set_last_snoc.
      destruct Hq as [Hq|(_ & Hpm & Hsh)]; [now destruct l'|].
      eexists; split; [reflexivity|]. split; [now destruct l'|]. split.
      * apply Forall_app in Hpm as [H1 H2]. apply Forall_app. split; [exact H1|].
        constructor; [|constructor]. apply Forall_inv in H2. now apply pm_add.
      * apply kept_shape_grow_last; [exact Hsh|]. apply pm_pos in Hd2. lia.
    + apply py_last_None in E. subst quant. eexists; split; [reflexivity|].
      split; [discriminate|]. split.
      * constructor; [exact Hd2 | constructor].
      * split; [|constructor]. intros f' d' [= <- <-]. now left.
  - eexists; split; [reflexivity|]. split; [now destruct quant|].
    destruct Hq as [->|(_ & Hpm & Hsh)].
    + split; [constructor; [exact Hd2 | constructor]|].
      split; [|constructor]. intros f' d' [= <- <-]. now right.
    + split; [|now apply kept_shape_snoc].
      apply Forall_app. split; [exact Hpm|]. constructor; [exact Hd2 | constructor].
Qed.

Lemma quant_pass_inv (m : Z) (merged : list Note) :
  merged <> [] ->
  exists out, for_each (quant_step (inject_Z u) m) merged [] = Ok out /\ quant_inv u m out.
Proof.
  intros Hne. destruct merged as [|n merged]; [congruence|]. simpl.
  destruct (quant_step_inv m [] n) as (s & -> & Hs); [now left|]. simpl.
  apply (for_each_invariant _ (quant_inv u m)); [|exact Hs].
  intros s' x Hs'. apply quant_step_inv. now right.
Qed.

Lemma cap_inv (m n : Z) (quant : list Note) :
  quant_inv u m quant -> quant_inv u m (cap n quant).
Proof.
  intros (Hne & Hpm & Hsh). unfold cap.
  destruct (Z.of_nat (length quant) >? n); [|exact (conj Hne (conj Hpm Hsh))].
  pose proof (slices_partition quant (n - 1)) as HP.
  set (keep := slice_to quant (n - 1)) in *.
  set (tail := slice_from quant (n - 1)) in *.
  rewrite <- HP in Hpm, Hsh, Hne. apply Forall_app in Hpm as [Hk Ht].
  destruct (all_pm_sum tail Ht) as (k & Hk0 & Esum & Hkpos).
  destruct (py_last keep) as [[lf ld]|] eqn:E.
  - apply py_last_Some in E as [l' E]. rewrite E in *. rewrite set_last_snoc.
    split; [now destruct l'|]. split.
    + apply Forall_app in Hk as [H1 H2]. apply Forall_app. split; [exact H1|].
      constructor; [|constructor]. apply Forall_inv in H2. simpl in *.
      destruct H2 as (j & Hj & ->). exists (j + k). split; lia.
    + apply kept_shape_grow_last; [|nia]. now apply kept_shape_prefix in Hsh.
  - apply py_last_None in E. rewrite E in *. simpl in Hne.
    split; [discriminate|]. split.
    + constructor; [|constructor]. simpl. exists k. split; [now apply Hkpos | exact Esum].
    + split; [|constructor]. intros f' d' [= <- <-]. now left.
Qed.

Lemma cap_length (n : Z) (quant : list Note) :
  1 <= n -> Z.of_nat (length (cap n quant)) <= n.
Proof.
  intros Hn. unfold cap.
  destruct (Z.gtb_spec (Z.of_nat (length quant)) n) as [Hgt|Hle]; [|exact Hle].
  pose proof (slice_to_length quant (n - 1) ltac:(lia)) as Hlen.
  destruct (py_last (slice_to quant (n - 1))) as [[lf ld]|] eqn:E.
  - rewrite set_last_length. lia.
  - simpl. lia.
Qed.

Lemma cap_short (n : Z) (quant : list Note) :
  Z.of_nat (length quant) <= n -> cap n quant = quant.
Proof.
  intros H. unfold cap.
  destruct (Z.gtb_spec (Z.of_nat (length quant)) n); [lia | reflexivity].
Qed.

(** A list without equal neighbours is left alone by pass 1. *)
Lemma merge_fix_from (l acc : list Note) :
  no_adjacent_eq l ->
  (forall a b, py_last acc = Some a -> head l = Some b -> fst a <> fst b) ->
  fold_left merge_step l acc = acc ++ l.
Proof.
  revert acc. induction l as [|[f d] l IH]; intros acc Hl Hacc; cbn [fold_left].
  - now rewrite app_nil_r.
  - assert (Hstep : merge_step acc (f, d) = acc ++ [(f, d)]).
    { unfold merge_step. destruct (py_last acc) as [[lf ld]|] eqn:E; [|reflexivity].
      specialize (Hacc (lf, ld) (f, d) eq_refl eq_refl). simpl in Hacc.
      destruct (Z.eqb_spec lf f); [contradiction | reflexivity]. }
    rewrite Hstep, IH.
    + now rewrite <- app_assoc.
    + destruct l; [exact I | apply Hl].
    + intros a b Ha Hb. rewrite py_last_snoc in Ha. injection Ha as <-.
      destruct l as [|b' l]; [discriminate|]. simpl in Hb. injection Hb as <-.
      apply Hl.
Qed.

Lemma merge_fix (l : list Note) : no_adjacent_eq l -> merge l = l.
Proof.
  intros Hl. unfold merge. rewrite merge_fix_from; [reflexivity | exact Hl |].
  intros a b Ha. discriminate.
Qed.

(** Entries that are multiples of the unit and long enough pass through
    pass 2 unchanged. *)
Lemma quant_fix_from (m : Z) (l acc : list Note) :
  all_pm u l -> Forall (fun n => m <= snd n) l ->
  for_each (quant_step (inject_Z u) m) l acc = Ok (acc ++ l).
Proof.
  revert acc. induction l as [|[f d] l IH]; intros acc Hpm Hm; simpl.
  - now rewrite app_nil_r.
  - apply Forall_cons in Hpm as [Hd Hpm]. apply Forall_cons in Hm as [Hdm Hm].
    simpl in Hd, Hdm.
    rewrite quantize_ok by (apply inject_Z_nonzero; lia). simpl.
    rewrite (quantum_fixes_multiples d Hd).
    destruct (Z.ltb_spec d m); [lia|]. simpl.
    rewrite IH by assumption. now rewrite <- app_assoc.
Qed.

Lemma quant_fix (m : Z) (l : list Note) :
  all_pm u l -> kept_shape m l ->
  for_each (quant_step (inject_Z u) m) l [] = Ok l.
Proof.
  intros Hpm [Hh Ht]. destruct l as [|[f d] l]; [reflexivity|]. simpl.
  apply Forall_cons in Hpm as [Hd Hpm]. simpl in Hd, Ht.
  rewrite quantize_ok by (apply inject_Z_nonzero; lia). simpl.
  rewrite (quantum_fixes_multiples d Hd).
  destruct (Z.ltb_spec d m) as [Hlt|Hge]; simpl.
  - destruct (Hh f d eq_refl) as [->|]; [|lia].
    now rewrite quant_fix_from.
  - now rewrite quant_fix_from.
Qed.

Lemma passes_fix (m n : Z) (l : list Note) :
  all_pm u l -> kept_shape m l -> no_adjacent_eq l -> Z.of_nat (length l) <= n ->
  passes l (inject_Z u) m n = Ok l.
Proof.
  intros Hpm Hsh Hadj Hlen. unfold passes.
  rewrite (merge_fix l Hadj), (quant_fix m l Hpm Hsh). simpl.
  now rewrite cap_short.
Qed.

Lemma merge_nonempty (n : Note) (notes : list Note) : merge (n :: notes) <> [].
Proof.
  assert (H : forall ns acc, acc <> [] -> fold_left merge_step ns acc <> []).
  { induction ns as [|[f d] ns IH]; intros acc Hacc; simpl; [exact Hacc|].
    apply IH. destruct (py_last acc) as [[lf ld]|] eqn:E.
    - destruct (lf =? f).
      + apply py_last_Some in E as [l' ->]. rewrite set_last_snoc. now destruct l'.
      + now destruct acc.
    - now destruct acc. }
  unfold merge. simpl. apply H. destruct n. discriminate.
Qed.

Lemma passes_inv (m n : Z) (x : Note) (notes : list Note) :
  exists out, passes (x :: notes) (inject_Z u) m n = Ok out /\ quant_inv u m out.
Proof.
  unfold passes.
  destruct (quant_pass_inv m (merge (x :: notes)) (merge_nonempty x notes))
    as (q & -> & Hq).
  simpl. eexists; split; [reflexivity|]. now apply cap_inv.
Qed.

End IntegerUnit.

(** ** The passes, whatever the float arithmetic gives *)

Section PassesInstances.
Import PyNum Quantizer Passes.

(** The rational model of the arithmetic is one instance of the parameter. *)
Lemma passes_instance (notes : list Note) (unit : Q) (min_ms max_notes : Z) :
  passes notes unit min_ms max_notes
    = passes_with (quantize unit) notes min_ms max_notes.
Proof. reflexivity. Qed.

Lemma simplify_header_instance (notes : list Note) (unit_ms min_ms max_notes : Z) :
  SimplifyHeader.simplify_notes notes unit_ms min_ms max_notes
    = simplify_notes_with (quantize (inject_Z unit_ms)) notes min_ms max_notes.
Proof. reflexivity. Qed.

Lemma midi_to_buzzer_instance (notes : list Note) (quarter_ms unit : Q)
    (denom min_ms max_notes : Z) :
  py_truediv quarter_ms (inject_Z denom) = Ok unit ->
  MidiToBuzzer.simplify_notes notes quarter_ms denom min_ms max_notes
    = simplify_notes_with (quantize unit) notes min_ms max_notes.
Proof.
  intros H. unfold MidiToBuzzer.simplify_notes, simplify_notes_with.
  destruct notes; [reflexivity|]. now rewrite H.
Qed.

End PassesInstances.

Section PassesFacts.
Import PyNum Quantizer QuantizerSpec Passes.
Variable qz : Z -> result Z.
Variable min_ms : Z.

(** Pass 2, case by case, for a duration that [qz] quantizes to [d2]. *)
Lemma quant_step_with_cases (quant : list Note) (f d d2 : Z) :
  qz d = Ok d2 ->
  (min_ms <= d2 /\
     quant_step_with qz min_ms quant (f, d) = Ok (quant ++ [(f, d2)])) \/
  (d2 < min_ms /\ quant = [] /\
     quant_step_with qz min_ms quant (f, d) = Ok [(0, d2)]) \/
  (d2 < min_ms /\ exists l' lf ld, quant = l' ++ [(lf, ld)] /\
     quant_step_with qz min_ms quant (f, d) = Ok (l' ++ [(lf, ld + d2)])).
Proof.
  intros Hq. unfold quant_step_with. rewrite Hq. cbn [rbind].
  destruct (Z.ltb_spec d2 min_ms) as [Hlt|Hge].
  - right. destruct (py_last quant) as [[lf ld]|] eqn:E.
    + right. split; [exact Hlt|]. apply py_last_Some in E as [l' ->].
      exists l', lf, ld. split; [reflexivity|]. now rewrite set_last_snoc.
    + left. apply py_last_None in E. subst quant. now repeat split.
  - left. split; [exact Hge | reflexivity].
Qed.

(** One step of pass 2 adds exactly the quantized duration to the total. *)
Lemma quant_step_with_sum (quant : list Note) (f d d2 : Z) :
  qz d = Ok d2 ->
  exists out, quant_step_with qz min_ms quant (f, d) = Ok out /\
    sum_durations out = sum_durations quant + d2.
Proof.
  intros Hq.
  destruct (quant_step_with_cases quant f d d2 Hq)
    as [[_ ->] | [(_ & -> & ->) | (_ & l' & lf & ld & -> & ->)]];
    eexists; (split; [reflexivity|]);
    rewrite ?sum_durations_app; unfold sum_durations; simpl; lia.
Qed.

Variable q : Z -> Z.

Lemma quant_pass_with_sum (merged acc : list Note) :
  (forall n, n ∈ merged -> qz (snd n) = Ok (q (snd n))) ->
  exists out, for_each (quant_step_with qz min_ms) merged acc = Ok out /\
    sum_durations out = sum_durations acc + total_of q merged.
Proof.
  revert acc. induction merged as [|[f d] merged IH]; intros acc Hq; cbn [for_each].
  - exists acc. split; [reflexivity|]. unfold total_of. simpl. lia.
  - destruct (quant_step_with_sum acc f d (q d)) as (s' & -> & Hs').
    { apply (Hq (f, d)). now left. }
    cbn [rbind]. destruct (IH s') as (out & -> & Hout).
    { intros n Hn. apply Hq. now right. }
    exists out. split; [reflexivity|]. unfold total_of in *. simpl. lia.
Qed.

(** Pass 2 keeps something as soon as there is something to quantize. *)
Lemma quant_pass_with_nonempty (merged acc : list Note) (out : list Note) :
  for_each (quant_step_with qz min_ms) merged acc = Ok out ->
  acc <> [] \/ merged <> [] -> out <> [].
Proof.
  revert acc. induction merged as [|[f d] merged IH]; intros acc H Hne; cbn [for_each] in H.
  - injection H as <-. destruct Hne as [Hne|Hne]; [exact Hne | congruence].
  - destruct (qz d) as [d2|e] eqn:Hq.
    + destruct (quant_step_with_cases acc f d d2 Hq)
        as [[_ E] | [(_ & _ & E) | (_ & l' & lf & ld & _ & E)]];
        rewrite E in H; cbn [rbind] in H; apply IH in H; try exact H; left.
      * now destruct acc.
      * discriminate.
      * now destruct l'.
    + unfold quant_step_with in H. rewrite Hq in H. discriminate.
Qed.

End PassesFacts.

Section CapFacts.
Import PyNum Quantizer.

(** Pass 3 on a list beyond a bound of at least two: the first
    [max_notes - 1] entries are kept and the last of them takes the
    durations of all the others. *)
Lemma cap_tail (max_notes : Z) (keep : list Note) (lf ld : Z) (tail : list Note) :
  Z.of_nat (length keep) + 2 = max_notes -> (2 <= length tail)%nat ->
  cap max_notes ((keep ++ [(lf, ld)]) ++ tail)
    = keep ++ [(lf, ld + sum_durations tail)].
Proof.
  intros Hk Ht. unfold cap.
  assert (Hlen : length ((keep ++ [(lf, ld)]) ++ tail)
                 = (length keep + 1 + length tail)%nat).
  { rewrite !length_app. reflexivity. }
  destruct (Z.gtb_spec (Z.of_nat (length ((keep ++ [(lf, ld)]) ++ tail))) max_notes)
    as [_|H]; [|rewrite Hlen in H; lia].
  assert (Hb : slice_bound (length ((keep ++ [(lf, ld)]) ++ tail)) (max_notes - 1)
               = length (keep ++ [(lf, ld)])).
  { unfold slice_bound. rewrite Hlen, length_app. simpl.
    destruct (Z.ltb_spec (max_notes - 1) 0); lia. }
  unfold slice_to, slice_from. rewrite Hb.
  rewrite take_app_length, drop_app_length.
  now rewrite py_last_snoc, set_last_snoc.
Qed.

(** Pass 3 at a bound of one: a single rest carries everything. *)
Lemma cap_one (quant : list Note) :
  (2 <= length quant)%nat -> cap 1 quant = [(0, sum_durations quant)].
Proof.
  intros H. unfold cap.
  destruct (Z.gtb_spec (Z.of_nat (length quant)) 1) as [_|H']; [|lia].
  assert (Hb : slice_bound (length quant) (1 - 1) = 0%nat).
  { unfold slice_bound. simpl. lia. }
  unfold slice_to, slice_from. rewrite Hb, take_0, drop_0. reflexivity.
Qed.

End CapFacts.

Section PassesTotal.
Import PyNum Quantizer QuantizerSpec Passes.

(** The three passes lose no quantized duration, whatever the bounds. *)
Lemma passes_with_sum (qz : Z -> result Z) (q : Z -> Z) (notes : list Note)
    (min_ms max_notes : Z) :
  (forall n, n ∈ merge notes -> qz (snd n) = Ok (q (snd n))) ->
  exists quant out,
    for_each (quant_step_with qz min_ms) (merge notes) [] = Ok quant /\
    simplify_notes_with qz notes min_ms max_notes = Ok out /\
    (notes <> [] -> quant <> [] /\ out = cap max_notes quant) /\
    sum_durations quant = total_of q (merge notes) /\
    sum_durations out = total_of q (merge notes).
Proof.
  intros Hq.
  destruct (quant_pass_with_sum qz min_ms q (merge notes) [] Hq) as (quant & Hquant & Hsum).
  change (sum_durations []) with 0 in Hsum. rewrite Z.add_0_l in Hsum.
  destruct notes as [|x notes].
  - exists [], []. cbn in Hquant. injection Hquant as <-.
    split; [reflexivity|]. split; [reflexivity|]. split; [congruence|].
    split; exact Hsum.
  - exists quant, (cap max_notes quant). split; [exact Hquant|]. split.
    { unfold simplify_notes_with, passes_with. cbv zeta. now rewrite Hquant. }
    split; [|split; [exact Hsum | now rewrite cap_sum]].
    intros _. split; [|reflexivity].
    apply (quant_pass_with_nonempty qz min_ms _ _ _ Hquant).
    right. apply merge_nonempty.
Qed.

End PassesTotal.

(** * Properties of the reducer *)

Section SortFacts.
Context {A : Type} (key : A -> Z).
Import Reducer.

Lemma insert_by_perm (x : A) (l : list A) : insert_by key x l ≡ₚ x :: l.
Proof.
  induction l as [|y l IH]; simpl; [reflexivity|].
  destruct (key x <=? key y); [reflexivity|].
  rewrite IH. apply Permutation_swap.
Qed.

Lemma sort_by_perm (l : list A) : sort_by key l ≡ₚ l.
Proof.
  induction l as [|x l IH]; simpl; [reflexivity|].
  rewrite insert_by_perm. now rewrite IH.
Qed.

Lemma elem_of_sort_by (x : A) (l : list A) : x ∈ sort_by key l <-> x ∈ l.
Proof. now rewrite sort_by_perm. Qed.

End SortFacts.

Section ReducerFacts.
Import Reducer ReducerSpec.

(** *** The event loop *)

Lemma close_note_tempo (st : LoopState) (t n : Z) :
  tempo (close_note st t n) = tempo st.
Proof. unfold close_note. now destruct (active st !! n) as [[s v]|]. Qed.

Lemma close_note_inactive (st : LoopState) (t n : Z) :
  active st !! n = None -> close_note st t n = st.
Proof. intros H. unfold close_note. now rewrite H. Qed.

Lemma event_step_tempo (st : LoopState) (ev : Z * Msg) :
  tempo (event_step st ev) =
    match snd ev with set_tempo _ t => t | _ => tempo st end.
Proof.
  destruct ev as [t [tm n v|tm n v|tm u|tm]]; simpl; try reflexivity.
  - destruct (v >? 0); [reflexivity|].
    destruct (v =? 0); [apply close_note_tempo | reflexivity].
  - apply close_note_tempo.
Qed.

Lemma run_tempo (evs : list (Z * Msg)) (st : LoopState) :
  tempo (fold_left event_step evs st) =
    match last (TempoSpec.tempo_changes evs) with
    | Some c => snd c
    | None => tempo st
    end.
Proof.
  revert st. induction evs as [|ev evs IH]; intros st; [reflexivity|].
  cbn [fold_left]. rewrite IH, event_step_tempo. clear IH.
  destruct ev as [t [tm n v|tm n v|tm u|tm]]; cbn [snd fst]; try reflexivity.
  change (TempoSpec.tempo_changes ((t, set_tempo tm u) :: evs))
    with ((t, u) :: TempoSpec.tempo_changes evs).
  generalize (TempoSpec.tempo_changes evs). intros [|c cs]; [reflexivity|].
  change (last ((t, u) :: c :: cs)) with (last (c :: cs)).
  destruct (last (c :: cs)) eqn:E; [reflexivity|].
  apply last_None in E. discriminate.
Qed.

Lemma run_events_tempo (evs : list (Z * Msg)) :
  tempo (run_events evs) = TempoSpec.last_tempo (TempoSpec.tempo_changes evs).
Proof. unfold run_events. now rewrite run_tempo. Qed.

Lemma run_events_snoc (evs : list (Z * Msg)) (ev : Z * Msg) :
  run_events (evs ++ [ev]) = event_step (run_events evs) ev.
Proof. unfold run_events. now rewrite fold_left_app. Qed.

Lemma close_note_results (st : LoopState) (t n : Z) (x : Interval) :
  x ∈ results (close_note st t n) ->
  x ∈ results st \/ (t = iv_end x /\ n = iv_note x).
Proof.
  unfold close_note. destruct (active st !! n) as [[s v]|]; [|now left].
  simpl. intros H. apply elem_of_app in H as [H|H]; [now left|].
  apply list_elem_of_singleton in H. subst x. now right.
Qed.

Lemma event_step_results (st : LoopState) (ev : Z * Msg) (x : Interval) :
  x ∈ results (event_step st ev) -> x ∈ results st \/ closes ev x.
Proof.
  destruct ev as [t [tm n v|tm n v|tm u|tm]]; unfold closes; simpl;
    try (now left).
  - destruct (v >? 0); [now left|].
    destruct (Z.eqb_spec v 0) as [->|]; [|now left].
    intros H. apply close_note_results in H as [H|[H1 H2]]; [now left|].
    right. now repeat split.
  - intros H. apply close_note_results in H as [H|[H1 H2]]; [now left|].
    right. now split.
Qed.

(** Every closed interval was closed by a NoteEnd of the stream. *)
Lemma results_closed (evs : list (Z * Msg)) (st : LoopState) (x : Interval) :
  x ∈ results (fold_left event_step evs st) ->
  x ∈ results st \/ exists ev, ev ∈ evs /\ closes ev x.
Proof.
  revert st. induction evs as [|ev evs IH]; intros st; [now left|].
  cbn [fold_left]. intros H. apply IH in H as [H|(ev' & Hin & Hc)].
  - apply event_step_results in H as [H|H]; [now left|].
    right. exists ev. split; [now left | exact H].
  - right. exists ev'. split; [now right | exact Hc].
Qed.

(** *** Grouping by start tick *)

Lemma group_fold_lookup (res : list Interval) (m : gmap Z (list Interval)) (s : Z) :
  fold_left group_step res m !! s =
    match filter (starts_at s) res with
    | [] => m !! s
    | g => Some (default [] (m !! s) ++ g)
    end.
Proof.
  revert m. induction res as [|x res IH]; intros m; [reflexivity|].
  cbn [fold_left]. rewrite IH. unfold group_step.
  destruct (decide (starts_at s x)) as [Hx|Hx].
  - rewrite (filter_cons_True _ _ _ Hx). unfold starts_at in Hx. rewrite Hx.
    rewrite lookup_insert_eq. simpl.
    destruct (filter (starts_at s) res); [reflexivity|].
    now rewrite <- app_assoc.
  - rewrite (filter_cons_False _ _ _ Hx). unfold starts_at in Hx.
    now rewrite lookup_insert_ne.
Qed.

Lemma group_by_start_lookup (res : list Interval) (s : Z) :
  group_by_start res !! s =
    match filter (starts_at s) res with
    | [] => None
    | g => Some g
    end.
Proof.
  unfold group_by_start. rewrite group_fold_lookup, lookup_empty.
  now destruct (filter (starts_at s) res).
Qed.

(** *** The winner of a group *)

Lemma key_lt_false (w x : Interval) :
  key_lt w x = false <->
  iv_vel x <= iv_vel w /\ (iv_vel x = iv_vel w -> iv_note x <= iv_note w).
Proof.
  unfold key_lt.
  destruct (Z.ltb_spec (iv_vel w) (iv_vel x)), (Z.eqb_spec (iv_vel w) (iv_vel x)),
    (Z.ltb_spec (iv_note w) (iv_note x)); simpl; split; intros; try lia;
    try discriminate; try reflexivity.
Qed.

Lemma key_lt_true (w x : Interval) :
  key_lt w x = true <->
  iv_vel w < iv_vel x \/ (iv_vel w = iv_vel x /\ iv_note w < iv_note x).
Proof.
  unfold key_lt.
  destruct (Z.ltb_spec (iv_vel w) (iv_vel x)), (Z.eqb_spec (iv_vel w) (iv_vel x)),
    (Z.ltb_spec (iv_note w) (iv_note x)); simpl; split; intros; try lia;
    try discriminate; try reflexivity.
Qed.

Lemma max_fold_spec (rest : list Interval) (best : Interval) (seen : list Interval) :
  best ∈ seen -> beats_all best seen ->
  let w := fold_left (fun b y => if key_lt b y then y else b) rest best in
  w ∈ seen ++ rest /\ beats_all w (seen ++ rest).
Proof.
  revert best seen. induction rest as [|y rest IH]; intros best seen Hin Hmax; simpl.
  - now rewrite app_nil_r.
  - replace (seen ++ y :: rest) with ((seen ++ [y]) ++ rest)
      by now rewrite <- app_assoc.
    destruct (key_lt best y) eqn:E.
    + apply IH; [apply elem_of_app; right; now apply list_elem_of_singleton|].
      apply key_lt_true in E. intros x Hx. apply elem_of_app in Hx as [Hx|Hx].
      * specialize (Hmax x Hx). lia.
      * apply list_elem_of_singleton in Hx. subst x. lia.
    + apply IH; [apply elem_of_app; now left|].
      apply key_lt_false in E. intros x Hx. apply elem_of_app in Hx as [Hx|Hx].
      * now apply Hmax.
      * apply list_elem_of_singleton in Hx. now subst x.
Qed.

Lemma py_max_spec (group : list Interval) :
  group <> [] ->
  exists w, py_max group = Ok w /\ w ∈ group /\ beats_all w group.
Proof.
  intros Hne. destruct group as [|x rest]; [congruence|]. simpl.
  eexists; split; [reflexivity|].
  apply (max_fold_spec rest x [x]).
  - now apply list_elem_of_singleton.
  - intros y Hy. apply list_elem_of_singleton in Hy. subst y. lia.
Qed.

(** *** The timeline *)

Lemma winner_of_start (res : list Interval) (k : Z) (w : Interval) :
  winner_of res k w -> iv_start w = k.
Proof.
  unfold winner_of. intros H.
  destruct (filter (starts_at k) res) as [|x g] eqn:E; [discriminate|].
  destruct (py_max_spec (x :: g)) as (w' & Hw' & Hin & _); [discriminate|].
  rewrite H in Hw'. injection Hw' as <-. rewrite <- E in Hin.
  now apply list_elem_of_filter in Hin as [Hin _].
Qed.

Lemma choose_all (res : list Interval) (keys : list Z) (acc : list Interval) :
  (forall k, k ∈ keys -> filter (starts_at k) res <> []) ->
  exists tl, for_each (choose (group_by_start res)) keys acc = Ok (acc ++ tl) /\
    Forall2 (winner_of res) keys tl.
Proof.
  revert acc. induction keys as [|k keys IH]; intros acc Hk; simpl.
  - exists []. split; [now rewrite app_nil_r | constructor].
  - unfold choose at 1. rewrite group_by_start_lookup.
    assert (Hg : filter (starts_at k) res <> []) by (apply Hk; now left).
    destruct (py_max_spec _ Hg) as (w & Hw & _).
    destruct (filter (starts_at k) res) as [|x g] eqn:E; [congruence|].
    rewrite Hw. simpl.
    destruct (IH (acc ++ [w])) as (tl & -> & Htl).
    { intros k' Hk'. apply Hk. now right. }
    exists (w :: tl). split; [now rewrite <- app_assoc|].
    constructor; [|exact Htl]. unfold winner_of. now rewrite E.
Qed.

Lemma winners_filter (res : list Interval) (keys : list Z) (tl : list Interval) (s : Z) :
  Forall2 (winner_of res) keys tl -> NoDup keys ->
  (s ∉ keys -> filter (starts_at s) tl = []) /\
  (forall w, s ∈ keys -> winner_of res s w -> filter (starts_at s) tl = [w]).
Proof.
  induction 1 as [|k w' keys tl Hw' _ IH]; intros Hnd.
  - split; [reflexivity|]. intros w Hs. now apply elem_of_nil in Hs.
  - apply NoDup_cons in Hnd as [Hk Hnd]. destruct (IH Hnd) as [IH1 IH2].
    pose proof (winner_of_start _ _ _ Hw') as Hstart. split.
    + intros Hs. rewrite filter_cons_False.
      * apply IH1. intros H. apply Hs. now right.
      * unfold starts_at. intros Hsw. apply Hs. rewrite <- Hsw, Hstart. now left.
    + intros w Hs Hw. apply elem_of_cons in Hs as [->|Hs].
      * rewrite filter_cons_True by exact Hstart.
        rewrite IH1 by exact Hk.
        unfold winner_of in *. rewrite Hw in Hw'. now injection Hw' as ->.
      * rewrite filter_cons_False; [now apply IH2|].
        unfold starts_at. rewrite Hstart. intros ->. contradiction.
Qed.

Lemma keys_spec (res : list Interval) (k : Z) :
  k ∈ sort_by id (map fst (map_to_list (group_by_start res))) <->
  filter (starts_at k) res <> [].
Proof.
  rewrite elem_of_sort_by.
  change (map fst (map_to_list (group_by_start res)))
    with ((map_to_list (group_by_start res)).*1).
  rewrite list_elem_of_fmap. split.
  - intros ([k' g] & -> & Hin). apply elem_of_map_to_list in Hin. simpl.
    rewrite group_by_start_lookup in Hin.
    destruct (filter (starts_at k') res); [discriminate | discriminate].
  - intros Hne. exists (k, filter (starts_at k) res). split; [reflexivity|].
    apply elem_of_map_to_list. rewrite group_by_start_lookup.
    now destruct (filter (starts_at k) res).
Qed.

Lemma keys_NoDup (res : list Interval) :
  NoDup (sort_by id (map fst (map_to_list (group_by_start res)))).
Proof.
  rewrite sort_by_perm.
  change (map fst (map_to_list (group_by_start res)))
    with ((map_to_list (group_by_start res)).*1).
  apply NoDup_fst_map_to_list.
Qed.

(** [build_timeline] never raises; its result holds, for each start tick
    that has closed intervals, exactly the winner of that group, and nothing
    for any other tick. *)
Lemma build_timeline_spec (res : list Interval) :
  exists timeline, build_timeline res = Ok timeline /\
    forall s,
      match filter (starts_at s) res with
      | [] => filter (starts_at s) timeline = []
      | group =>
          exists w, filter (starts_at s) timeline = [w] /\
            w ∈ group /\ beats_all w group
      end.
Proof.
  unfold build_timeline. cbv zeta.
  set (R := sort_by iv_start res).
  set (keys := sort_by id (map fst (map_to_list (group_by_start R)))).
  destruct (choose_all R keys []) as (tl & Htl & Hwin).
  { intros k Hk. now apply keys_spec in Hk. }
  rewrite Htl. simpl. eexists; split; [reflexivity|]. intros s.
  assert (HR : filter (starts_at s) R ≡ₚ filter (starts_at s) res)
    by (unfold R; now rewrite sort_by_perm).
  destruct (winners_filter R keys tl s Hwin (keys_NoDup R)) as [Hout Hin].
  destruct (filter (starts_at s) res) as [|x g] eqn:E.
  - apply Permutation_nil_r in HR.
    assert (Hs : s ∉ keys) by (intros Hs; apply keys_spec in Hs; contradiction).
    apply Permutation_nil_r. rewrite sort_by_perm. now rewrite Hout.
  - assert (HneR : filter (starts_at s) R <> []).
    { intros H0. rewrite H0 in HR. now apply Permutation_nil_l in HR. }
    destruct (py_max_spec _ HneR) as (w & Hw & Hwin_in & Hbeats).
    exists w. split; [|split].
    + apply Permutation_singleton_r. rewrite sort_by_perm.
      rewrite (Hin w); [reflexivity | now apply keys_spec | exact Hw].
    + now rewrite <- HR.
    + intros y Hy. apply Hbeats. now rewrite HR.
Qed.

End ReducerFacts.

(** * Properties of the tempo conversion and of the compiler *)

Section TempoFacts.
Import PyNum Tempo TempoSpec.

(** Python's [round]: a nearest integer, the even one on a tie. *)
Lemma py_round_nearest (x : Q) : nearest_ties_even x (py_round x).
Proof.
  unfold nearest_ties_even, py_round.
  pose proof (Qfloor_le x) as Hlo. pose proof (Qlt_floor x) as Hhi.
  rewrite inject_Z_plus in Hhi. change (inject_Z 1) with 1%Q in Hhi.
  set (f := Qfloor x) in *.
  destruct (x - inject_Z f ?= 1 # 2)%Q eqn:E.
  - apply Qeq_alt in E. destruct (Z.even f) eqn:Ev.
    + split; [lra|]. intros _. exact Ev.
    + rewrite inject_Z_plus. change (inject_Z 1) with 1%Q. split; [lra|].
      intros _. rewrite Z.even_add, Ev. reflexivity.
  - apply Qlt_alt in E. split; [lra|]. intros [H|H]; lra.
  - apply Qgt_alt in E. rewrite inject_Z_plus. change (inject_Z 1) with 1%Q.
    split; [lra|]. intros [H|H]; lra.
Qed.

Lemma ticks_to_ms_ok (ticks : Z) (tempo : option Z) (tpb : Z) :
  tpb <> 0 -> ticks_to_ms ticks tempo tpb = Ok (py_round (exact_ms ticks tempo tpb)).
Proof.
  intros Htpb. unfold ticks_to_ms, exact_ms, py_truediv.
  destruct (Qeq_bool (inject_Z tpb) 0) eqn:E; [|reflexivity].
  apply Qeq_bool_iff in E. now apply inject_Z_nonzero in E.
Qed.

End TempoFacts.

Section CompilerFacts.
Import PyNum Quantizer Tempo Compiler CompilerSpec.
Variable note_to_freq : Z -> Z.
Variable rate : Z.
Variable tpb : Z.

(** The loop of [build_note_array], started with [notes] and a cursor, adds
    to [notes] what the specification's compiler gives at the constant
    rate, and raises where it raises. *)
Lemma note_loop_compile (events : list (Z * Z * Z)) (notes : list Note) (cur : Z) :
  (let* st := for_each (note_step note_to_freq (Some rate) tpb) events (notes, cur) in
   Ok (fst st))
  = let* out := compile_from note_to_freq (fun _ => rate) tpb cur events in
    Ok (notes ++ out).
Proof.
  revert notes cur. induction events as [|[[n s] e] events IH]; intros notes cur.
  - cbn. now rewrite app_nil_r.
  - cbn [for_each compile_from note_step].
    destruct (s >? cur).
    + destruct (ticks_to_ms (s - cur) (Some rate) tpb) as [rest_ms|err]; [|reflexivity].
      cbn [rbind].
      destruct (ticks_to_ms (e - s) (Some rate) tpb) as [dur_ms|err];
        [|destruct (rest_ms >? 0); reflexivity].
      destruct (rest_ms >? 0); cbn [rbind]; rewrite IH;
        destruct (compile_from note_to_freq (fun _ => rate) tpb e events) as [more|err];
        cbn [rbind]; try reflexivity; f_equal; now rewrite <- !app_assoc.
    + cbn [rbind].
      destruct (ticks_to_ms (e - s) (Some rate) tpb) as [dur_ms|err]; [|reflexivity].
      cbn [rbind]. rewrite IH.
      destruct (compile_from note_to_freq (fun _ => rate) tpb e events) as [more|err];
        cbn [rbind]; try reflexivity. f_equal. now rewrite <- app_assoc.
Qed.

Lemma build_note_array_compile (events : list (Z * Z * Z)) :
  build_note_array note_to_freq events (Some rate) tpb
    = compile_spec note_to_freq (fun _ => rate) tpb events.
Proof.
  unfold build_note_array, compile_spec. destruct events as [|[[n0 s0] e0] events].
  - reflexivity.
  - rewrite note_loop_compile.
    destruct (compile_from note_to_freq (fun _ => rate) tpb s0 ((n0, s0, e0) :: events));
      reflexivity.
Qed.

(** With a resolution that is not zero no conversion raises. *)
Lemma compile_from_total (rate_at : Z -> Z) (events : list (Z * Z * Z)) (cur : Z) :
  tpb <> 0 ->
  exists out, compile_from note_to_freq rate_at tpb cur events = Ok out.
Proof.
  intros Htpb. revert cur. induction events as [|[[n s] e] events IH]; intros cur.
  - now exists [].
  - cbn [compile_from]. rewrite !ticks_to_ms_ok by exact Htpb.
    destruct (IH e) as (more & ->).
    destruct (s >? cur); cbn [rbind]; eexists; reflexivity.
Qed.

End CompilerFacts.

(** * Properties of the header emitter and parser *)

Section HeaderFacts.
Import Quantizer Header HeaderSpec.
Local Open Scope string_scope.

Lemma append_cons (c : ascii) (a b : string) : String c a ++ b = String c (a ++ b).
Proof. reflexivity. Qed.

Lemma append_nil_l (b : string) : "" ++ b = b.
Proof. reflexivity. Qed.

Lemma string_app_assoc (a b c : string) : (a ++ b) ++ c = a ++ (b ++ c).
Proof.
  induction a as [|x a IH]; [reflexivity|]. rewrite !append_cons. now f_equal.
Qed.

(** *** Decimal numerals *)

Lemma all_digits_uint (d : Decimal.uint) :
  all_digits (NilEmpty.string_of_uint d) = true.
Proof. induction d; simpl; auto. Qed.

Lemma pos_to_uint_not_nil (p : positive) : Pos.to_uint p <> Decimal.Nil.
Proof.
  intros H. pose proof (DecimalPos.Unsigned.of_to p) as E.
  rewrite H in E. discriminate.
Qed.

Lemma py_str_digits (n : Z) :
  (0 <= n)%Z -> all_digits (py_str n) = true /\ py_str n <> "".
Proof.
  intros Hn. unfold py_str. destruct n as [|p|p]; [now split | | lia].
  simpl. split; [apply all_digits_uint|].
  pose proof (pos_to_uint_not_nil p) as H.
  destruct (Pos.to_uint p); [congruence | discriminate ..].
Qed.

Lemma py_int_of_py_str (n : Z) :
  (0 <= n)%Z -> py_int_of_digits (py_str n) = Ok n.
Proof.
  intros Hn. unfold py_int_of_digits, py_str. destruct n as [|p|p]; [reflexivity | | lia].
  simpl. rewrite NilEmpty.usu. unfold Z.of_uint.
  now rewrite DecimalPos.Unsigned.of_to.
Qed.

Lemma all_digits_no_newline (s : string) : all_digits s = true -> no_newline s = true.
Proof.
  induction s as [|c s IH]; simpl; [reflexivity|].
  intros H. apply andb_prop in H as [Hc Hs]. rewrite (IH Hs), andb_true_r.
  destruct (Ascii.eqb_spec c newline) as [->|]; [discriminate | reflexivity].
Qed.

Lemma no_newline_app (a b : string) :
  no_newline (a ++ b) = no_newline a && no_newline b.
Proof.
  induction a as [|c a IH]; [reflexivity|]. rewrite append_cons. simpl.
  now rewrite IH, andb_assoc.
Qed.

(** *** Lines *)

Lemma lines_from_line (a rest line : string) :
  no_newline a = true ->
  lines_from line (a ++ nl ++ rest) = (line ++ a ++ nl) :: lines_from "" rest.
Proof.
  revert line. induction a as [|c a IH]; intros line Ha.
  - reflexivity.
  - cbn [no_newline] in Ha. apply andb_prop in Ha as [Hc Ha].
    rewrite append_cons. cbn [lines_from].
    destruct (Ascii.eqb c newline); [discriminate|].
    rewrite (IH _ Ha). rewrite string_app_assoc, append_cons, append_nil_l.
    reflexivity.
Qed.

Lemma lines_from_app (s rest line : string) :
  ends_with_nl s = true ->
  lines_from line (s ++ rest) = (lines_from line s ++ lines_from "" rest)%list.
Proof.
  revert line. induction s as [|c s IH]; intros line Hs; [discriminate|].
  destruct s as [|c' s].
  - simpl in *. rewrite Hs. reflexivity.
  - change (ends_with_nl (String c (String c' s))) with (ends_with_nl (String c' s)) in Hs.
    change (lines_from line (String c (String c' s) ++ rest))
      with (if Ascii.eqb c newline
            then (line ++ nl) :: lines_from "" (String c' s ++ rest)
            else lines_from (line ++ String c "") (String c' s ++ rest)).
    change (lines_from line (String c (String c' s)))
      with (if Ascii.eqb c newline
            then (line ++ nl) :: lines_from "" (String c' s)
            else lines_from (line ++ String c "") (String c' s)).
    destruct (Ascii.eqb c newline); now rewrite (IH _ Hs).
Qed.

(** *** Matching one line *)

Lemma skip_spaces_digits (s rest : string) :
  all_digits s = true -> s <> "" -> skip_spaces (s ++ rest) = s ++ rest.
Proof.
  destruct s as [|c s]; [congruence|]. rewrite append_cons. simpl. intros H _.
  apply andb_prop in H as [Hc _].
  assert (Hsp : is_space c = false).
  { unfold is_digit, is_space in *. cbv zeta in *.
    destruct (Nat.leb_spec 48 (nat_of_ascii c)); [|discriminate].
    destruct (Nat.leb_spec (nat_of_ascii c) 13); [lia|].
    destruct (Nat.leb_spec 28 (nat_of_ascii c)), (Nat.leb_spec (nat_of_ascii c) 32);
      try lia; now rewrite andb_false_r. }
  now rewrite Hsp.
Qed.

Lemma take_digits_app (s rest : string) :
  all_digits s = true -> no_digit_ahead rest = true ->
  take_digits (s ++ rest) = (s, rest).
Proof.
  intros Hs Hr. induction s as [|c s IH].
  - rewrite append_nil_l. destruct rest as [|c r]; [reflexivity|]. simpl in *.
    now destruct (is_digit c).
  - rewrite append_cons. simpl in *.
    apply andb_prop in Hs as [Hc Hs]. rewrite Hc, (IH Hs). reflexivity.
Qed.

Lemma digits1_app (s rest : string) :
  all_digits s = true -> s <> "" -> no_digit_ahead rest = true ->
  digits1 (s ++ rest) = Some (s, rest).
Proof.
  intros Hs Hne Hr. unfold digits1. rewrite (take_digits_app _ _ Hs Hr).
  destruct s; [congruence | reflexivity].
Qed.

Lemma search_note_line (g1 g2 : string) :
  all_digits g1 = true -> g1 <> "" -> all_digits g2 = true -> g2 <> "" ->
  search ("  {" ++ g1 ++ ", " ++ g2 ++ "}," ++ nl) = Some (g1, g2).
Proof.
  intros H1 N1 H2 N2.
  change ("  {" ++ g1 ++ ", " ++ g2 ++ "}," ++ nl)
    with (String " " (String " " (String "{" (g1 ++ ", " ++ g2 ++ "}," ++ nl)))).
  cbn [search]. change (match_here (String " " ?s)) with (@None (string * string)).
  assert (Hm : match_here (String "{" (g1 ++ ", " ++ g2 ++ "}," ++ nl)) = Some (g1, g2)).
  { unfold match_here. cbn [expect]. rewrite Ascii.eqb_refl. cbn [mbind option_bind].
    rewrite (skip_spaces_digits g1 _ H1 N1).
    rewrite (digits1_app g1 _ H1 N1) by reflexivity. cbn [mbind option_bind].
    change (skip_spaces (", " ++ g2 ++ "}," ++ nl)) with (", " ++ g2 ++ "}," ++ nl).
    change (expect "," (", " ++ g2 ++ "}," ++ nl)) with (Some (" " ++ g2 ++ "}," ++ nl)).
    cbn [mbind option_bind].
    change (skip_spaces (" " ++ g2 ++ "}," ++ nl)) with (skip_spaces (g2 ++ "}," ++ nl)).
    rewrite (skip_spaces_digits g2 _ H2 N2).
    rewrite (digits1_app g2 _ H2 N2) by reflexivity. reflexivity. }
  now rewrite Hm.
Qed.

(** *** The whole file *)

Lemma no_newline_py_str (n : Z) : no_newline (py_str n) = true.
Proof.
  unfold py_str. destruct n as [|p|p]; [reflexivity | |]; simpl;
    apply all_digits_no_newline, all_digits_uint.
Qed.

Lemma emit_note_line (n : Note) :
  exists a, no_newline a = true /\ emit_note n = a ++ nl.
Proof.
  destruct n as [f d]. unfold emit_note. cbv zeta.
  exists ("  {" ++ py_str f ++ ", " ++ py_str (clamp_duration d) ++ "},"). split.
  - rewrite !no_newline_app, !no_newline_py_str. reflexivity.
  - now rewrite !string_app_assoc.
Qed.

Lemma lines_notes (notes : list Note) (rest : string) :
  lines (fold_right (fun n r => emit_note n ++ r) rest notes)
    = (map emit_note notes ++ lines rest)%list.
Proof.
  unfold lines. induction notes as [|n notes IH]; [reflexivity|].
  cbn [fold_right map]. destruct (emit_note_line n) as (a & Ha & ->).
  rewrite string_app_assoc, (lines_from_line a _ "" Ha), IH. reflexivity.
Qed.

Lemma lines_emit_header (notes : list Note) (guard_name : string) :
  ends_with_nl (header_prologue guard_name) = true ->
  lines (emit_header notes guard_name)
    = (lines (header_prologue guard_name) ++ map emit_note notes
         ++ lines (header_epilogue guard_name))%list.
Proof.
  intros H. unfold emit_header, lines at 1.
  rewrite (lines_from_app _ _ "" H). fold (lines (header_prologue guard_name)).
  f_equal. apply lines_notes.
Qed.

Lemma for_each_app {A S : Type} (body : S -> A -> result S) (xs ys : list A) (s : S) :
  for_each body (xs ++ ys)%list s
    = let* s' := for_each body xs s in for_each body ys s'.
Proof.
  revert s. induction xs as [|x xs IH]; intros s; [reflexivity|].
  cbn [for_each app]. destruct (body s x); [apply IH | reflexivity].
Qed.

Lemma parse_unmatched (ls : list string) (acc : list Note) :
  forallb no_match ls = true -> for_each parse_line ls acc = Ok acc.
Proof.
  induction ls as [|l ls IH]; [reflexivity|]. cbn [forallb for_each].
  intros H. apply andb_prop in H as [Hl Hls]. unfold parse_line at 1.
  unfold no_match in Hl. destruct (search l); [discriminate|]. simpl. now apply IH.
Qed.

Lemma clamp_duration_range (d : Z) : (0 <= clamp_duration d <= MAX_UINT16)%Z.
Proof.
  unfold clamp_duration, MAX_UINT16. cbv zeta.
  destruct (Z.ltb_spec d 0).
  - simpl. lia.
  - destruct (Z.gtb_spec d 65535); lia.
Qed.

Lemma clamp_duration_id (d : Z) : (0 <= d <= MAX_UINT16)%Z -> clamp_duration d = d.
Proof.
  unfold clamp_duration, MAX_UINT16. cbv zeta. intros H.
  destruct (Z.ltb_spec d 0); [lia|]. destruct (Z.gtb_spec d 65535); lia.
Qed.

Lemma parse_note_line (acc : list Note) (f d : Z) :
  (0 <= f)%Z ->
  parse_line acc (emit_note (f, d)) = Ok (acc ++ [(f, clamp_duration d)])%list.
Proof.
  intros Hf. pose proof (clamp_duration_range d) as [Hd _].
  destruct (py_str_digits f Hf) as [F1 F2].
  destruct (py_str_digits _ Hd) as [D1 D2].
  unfold parse_line, emit_note. cbv zeta.
  rewrite (search_note_line _ _ F1 F2 D1 D2).
  now rewrite (py_int_of_py_str f Hf), (py_int_of_py_str _ Hd).
Qed.

Lemma parse_note_lines (notes acc : list Note) :
  Forall (fun n => (0 <= fst n)%Z) notes ->
  for_each parse_line (map emit_note notes) acc
    = Ok (acc ++ map (fun n => (fst n, clamp_duration (snd n))) notes)%list.
Proof.
  intros H. revert acc. induction H as [|[f d] notes Hf _ IH]; intros acc.
  - simpl. now rewrite app_nil_r.
  - cbn [map for_each]. rewrite (parse_note_line acc f d Hf). simpl.
    rewrite IH. now rewrite <- app_assoc.
Qed.

(** What parsing an emitted file gives back: the notes, durations clamped. *)
Lemma parse_emit_clamped (notes : list Note) :
  Forall (fun n => (0 <= fst n)%Z) notes ->
  parse_header (emit_header notes default_guard)
    = Ok (map (fun n => (fst n, clamp_duration (snd n))) notes).
Proof.
  intros H. unfold parse_header.
  rewrite lines_emit_header by (vm_compute; reflexivity).
  rewrite for_each_app.
  rewrite parse_unmatched by (vm_compute; reflexivity). cbn [rbind].
  rewrite for_each_app, (parse_note_lines notes [] H). cbn [rbind app].
  apply parse_unmatched. vm_compute. reflexivity.
Qed.

End HeaderFacts.

(** ** Claims about the quantizer: conservation, validation, count bound *)

Section QuantizerClaims.
Import PyNum Quantizer QuantizerSpec Passes.

(** C4: whatever the float arithmetic of the quantization gives for one
    duration, as long as it raises nothing on the merged durations,
    [simplify_notes] returns a list whose durations add up to the total of
    the quantized durations of the merged events, for every [min_ms] and
    every [max_notes].  Pass 2 appends an event that is long enough, adds a
    too-short quantized duration to the entry kept last, and emits it as a
    rest when nothing is kept yet.  Pass 3 leaves a list within the bound
    alone; beyond a bound of two or more it keeps the first [max_notes - 1]
    entries and adds the durations of all the others to the last of them,
    and at a bound of one a single rest carries everything. *)
Theorem C4_durations_conserved
    (qz : Z -> result Z) (q : Z -> Z) (notes : list Note) (min_ms max_notes : Z) :
  (forall n, n ∈ merge notes -> qz (snd n) = Ok (q (snd n))) ->
  (exists quant out,
      for_each (quant_step_with qz min_ms) (merge notes) [] = Ok quant /\
      simplify_notes_with qz notes min_ms max_notes = Ok out /\
      (notes <> [] -> quant <> [] /\ out = cap max_notes quant) /\
      sum_durations quant = total_of q (merge notes) /\
      sum_durations out = total_of q (merge notes)) /\
  (forall kept f d d2,
      qz d = Ok d2 -> min_ms <= d2 ->
      quant_step_with qz min_ms kept (f, d) = Ok (kept ++ [(f, d2)])) /\
  (forall kept lf ld f d d2,
      qz d = Ok d2 -> d2 < min_ms ->
      quant_step_with qz min_ms (kept ++ [(lf, ld)]) (f, d)
        = Ok (kept ++ [(lf, ld + d2)])) /\
  (forall f d d2,
      qz d = Ok d2 -> d2 < min_ms ->
      quant_step_with qz min_ms [] (f, d) = Ok [(0, d2)]) /\
  (forall quant,
      Z.of_nat (length quant) <= max_notes -> cap max_notes quant = quant) /\
  (forall keep lf ld tail,
      Z.of_nat (length keep) + 2 = max_notes -> (2 <= length tail)%nat ->
      cap max_notes ((keep ++ [(lf, ld)]) ++ tail)
        = keep ++ [(lf, ld + sum_durations tail)]) /\
  (forall quant,
      (2 <= length quant)%nat -> cap 1 quant = [(0, sum_durations quant)]).
Proof.
  intros Hq. split; [now apply passes_with_sum|].
  split; [|split; [|split; [|split; [|split]]]].
  - intros kept f d d2 Hd Hlong.
    destruct (quant_step_with_cases qz min_ms kept f d d2 Hd)
      as [[_ E] | [(H & _) | (H & _)]]; [exact E | lia | lia].
  - intros kept lf ld f d d2 Hd Hshort.
    destruct (quant_step_with_cases qz min_ms (kept ++ [(lf, ld)]) f d d2 Hd)
      as [[H _] | [(_ & H & _) | (_ & l' & lf' & ld' & E & ->)]]; [lia | |].
    + now destruct kept.
    + apply app_inj_tail in E as [-> [= -> ->]]. reflexivity.
  - intros f d d2 Hd Hshort.
    destruct (quant_step_with_cases qz min_ms [] f d d2 Hd)
      as [[H _] | [(_ & _ & E) | (_ & l' & lf' & ld' & E & _)]]; [lia | exact E |].
    now destruct l'.
  - intros quant. apply cap_short.
  - intros keep lf ld tail. apply cap_tail.
  - intros quant. apply cap_one.
Qed.

Lemma C4_durations_conserved_witness :
  (exists quant out,
      for_each (quant_step_with (quantize (inject_Z 10)) 80)
        (merge [(440, 200); (0, 10); (880, 200); (0, 300); (660, 200)]) [] = Ok quant /\
      simplify_notes_with (quantize (inject_Z 10))
        [(440, 200); (0, 10); (880, 200); (0, 300); (660, 200)] 80 2 = Ok out /\
      ([(440, 200); (0, 10); (880, 200); (0, 300); (660, 200)] <> [] ->
       quant <> [] /\ out = cap 2 quant) /\
      sum_durations quant
        = total_of (quantum (inject_Z 10))
            (merge [(440, 200); (0, 10); (880, 200); (0, 300); (660, 200)]) /\
      sum_durations out
        = total_of (quantum (inject_Z 10))
            (merge [(440, 200); (0, 10); (880, 200); (0, 300); (660, 200)])) /\
  (forall kept f d d2,
      quantize (inject_Z 10) d = Ok d2 -> 80 <= d2 ->
      quant_step_with (quantize (inject_Z 10)) 80 kept (f, d) = Ok (kept ++ [(f, d2)])) /\
  (forall kept lf ld f d d2,
      quantize (inject_Z 10) d = Ok d2 -> d2 < 80 ->
      quant_step_with (quantize (inject_Z 10)) 80 (kept ++ [(lf, ld)]) (f, d)
        = Ok (kept ++ [(lf, ld + d2)])) /\
  (forall f d d2,
      quantize (inject_Z 10) d = Ok d2 -> d2 < 80 ->
      quant_step_with (quantize (inject_Z 10)) 80 [] (f, d) = Ok [(0, d2)]) /\
  (forall quant, Z.of_nat (length quant) <= 2 -> cap 2 quant = quant) /\
  (forall keep lf ld tail,
      Z.of_nat (length keep) + 2 = 2 -> (2 <= length tail)%nat ->
      cap 2 ((keep ++ [(lf, ld)]) ++ tail) = keep ++ [(lf, ld + sum_durations tail)]) /\
  (forall quant,
      (2 <= length quant)%nat -> cap 1 quant = [(0, sum_durations quant)]).
Proof.
  apply (C4_durations_conserved (quantize (inject_Z 10)) (quantum (inject_Z 10))
           [(440, 200); (0, 10); (880, 200); (0, 300); (660, 200)] 80 2).
  intros n _. apply quantize_ok. discriminate.
Defined.

(** The list of the witness goes through all three passes: the short rest
    is absorbed, and the bound of two leaves one entry to take the tail. *)
Example passes_traced :
  for_each (quant_step_with (quantize (inject_Z 10)) 80)
    (merge [(440, 200); (0, 10); (880, 200); (0, 300); (660, 200)]) []
    = Ok [(440, 210); (880, 200); (0, 300); (660, 200)] /\
  simplify_notes_with (quantize (inject_Z 10))
    [(440, 200); (0, 10); (880, 200); (0, 300); (660, 200)] 80 2 = Ok [(440, 910)] /\
  simplify_notes_with (quantize (inject_Z 10))
    [(440, 200); (0, 10); (880, 200); (0, 300); (660, 200)] 80 1 = Ok [(0, 910)].
Proof. repeat split; vm_compute; reflexivity. Qed.

(** C8, as the code has it: neither [simplify_notes] validates its
    configuration.  An empty list returns [[]] whatever the configuration; on
    a non-empty list a zero unit raises [ZeroDivisionError] out of the
    quantization pass (in [midi_to_buzzer] a zero [denom] raises it where the
    unit is computed), and every non-zero unit, negative ones included, with
    every [max_notes], negative ones included, returns a list. *)
Theorem C8_no_validation_at_entry
    (notes : list Note) (unit_ms : Z) (quarter_ms : Q) (denom min_ms max_notes : Z) :
  notes <> [] -> unit_ms <> 0 ->
  SimplifyHeader.simplify_notes [] 0 min_ms max_notes = Ok [] /\
  MidiToBuzzer.simplify_notes [] quarter_ms 0 min_ms max_notes = Ok [] /\
  SimplifyHeader.simplify_notes notes 0 min_ms max_notes = Raise ZeroDivisionError /\
  MidiToBuzzer.simplify_notes notes 0 denom min_ms max_notes = Raise ZeroDivisionError /\
  MidiToBuzzer.simplify_notes notes quarter_ms 0 min_ms max_notes = Raise ZeroDivisionError /\
  exists out, SimplifyHeader.simplify_notes notes unit_ms min_ms max_notes = Ok out.
Proof.
  intros Hne Hu. split; [reflexivity|]. split; [reflexivity|].
  assert (Hm : merge notes <> []).
  { destruct notes as [|n notes]; [congruence | apply merge_nonempty]. }
  assert (Hraise : forall unit, (unit == 0)%Q ->
            passes notes unit min_ms max_notes = Raise ZeroDivisionError).
  { intros unit Hz. unfold passes. destruct (merge notes) as [|[f d] m]; [congruence|].
    rewrite (for_each_raises_at_once _ ZeroDivisionError); [reflexivity|].
    unfold quant_step. now rewrite (quantize_zero _ _ Hz). }
  destruct notes as [|n notes]; [congruence|].
  split; [apply Hraise; reflexivity|].
  split.
  { unfold MidiToBuzzer.simplify_notes, py_truediv.
    destruct (Qeq_bool (inject_Z denom) 0); [reflexivity|]. simpl.
    apply Hraise. unfold Qdiv. apply Qmult_0_l. }
  split; [reflexivity|].
  destruct (passes_sum (n :: notes) (inject_Z unit_ms) min_ms max_notes
              (inject_Z_nonzero _ Hu)) as (out & Hout & _).
  exists out. exact Hout.
Qed.

Lemma C8_no_validation_at_entry_witness :
  SimplifyHeader.simplify_notes [] 0 80 (-1) = Ok [] /\
  MidiToBuzzer.simplify_notes [] 500 0 80 (-1) = Ok [] /\
  SimplifyHeader.simplify_notes [(440, 100)] 0 80 (-1) = Raise ZeroDivisionError /\
  MidiToBuzzer.simplify_notes [(440, 100)] 0 8 80 (-1) = Raise ZeroDivisionError /\
  MidiToBuzzer.simplify_notes [(440, 100)] 500 0 80 (-1) = Raise ZeroDivisionError /\
  exists out, SimplifyHeader.simplify_notes [(440, 100)] (-128) 80 (-1) = Ok out.
Proof.
  apply (C8_no_validation_at_entry [(440, 100)] (-128) 500 8 80 (-1)).
  - discriminate.
  - lia.
Defined.

(** C8 as stated fails: with a negative unit, with a negative count bound, or
    with both, the quantizer raises nothing and returns a list; with a zero
    unit and no notes it returns the empty list. *)
Lemma C8_counterexample :
  SimplifyHeader.simplify_notes [(440, 100)] (-128) 80 300 = Ok [(0, -128)] /\
  SimplifyHeader.simplify_notes [(440, 100)] 128 80 (-1) = Ok [(0, 128)] /\
  SimplifyHeader.simplify_notes [(440, 100)] (-128) 80 (-1) = Ok [(0, -128)] /\
  SimplifyHeader.simplify_notes [] 0 80 300 = Ok [] /\
  MidiToBuzzer.simplify_notes [(440, 100)] (-500) 8 80 (-1) = Ok [(0, -62)].
Proof. repeat split; vm_compute; reflexivity. Qed.

(** C1 at [max_notes = 0]: three distinct events come out as two, one more
    than [max(max_notes, 1)], and the last of them is not the single rest the
    degenerate case promises: [quant[:max_notes-1]] is [quant[:-1]] there. *)
Theorem C1_count_bound_broken_at_zero :
  SimplifyHeader.simplify_notes [(440, 128); (0, 128); (880, 128)] 128 80 0
    = Ok [(440, 128); (0, 256)] /\
  MidiToBuzzer.simplify_notes [(440, 125); (0, 125); (880, 125)] 500 8 80 0
    = Ok [(440, 125); (0, 250)] /\
  (Z.of_nat (length [(440, 128); (0, 256)]) > Z.max 0 1).
Proof. repeat split; vm_compute; reflexivity. Qed.

End QuantizerClaims.

(** ** Claims about the quantizer: multiples of the unit, second pass *)

Section QuantizerClaimsInteger.
Import PyNum Quantizer QuantizerSpec.

(** For a count bound of at least one the bound holds, whatever the unit. *)
Lemma count_bound_from_one (notes : list Note) (unit : Q) (min_ms max_notes : Z) :
  ~ (unit == 0)%Q -> 1 <= max_notes ->
  exists out, passes notes unit min_ms max_notes = Ok out /\
    Z.of_nat (length out) <= max_notes.
Proof.
  intros Hu Hn. unfold passes.
  destruct (quant_pass_sum unit min_ms (merge notes) [] Hu) as (q & -> & _).
  simpl. eexists; split; [reflexivity|]. now apply cap_length.
Qed.




(** C6, as the code has it: with a positive integer unit and a count bound of
    at least one, a second pass returns the output of the first unchanged
    whenever that output has no two neighbours of equal frequency.  The
    durations are not negative and their totals, before and after the first
    pass, stay below [2^52]: there the double that [d / unit_ms] gives
    rounds as the exact quotient does. *)
Theorem C6_second_pass_stable
    (notes out : list Note) (unit_ms min_ms max_notes : Z) :
  0 < unit_ms -> 1 <= max_notes ->
  Forall (fun n => 0 <= snd n) notes -> sum_durations notes < 2 ^ 52 ->
  SimplifyHeader.simplify_notes notes unit_ms min_ms max_notes = Ok out ->
  sum_durations out < 2 ^ 52 ->
  no_adjacent_eq out ->
  SimplifyHeader.simplify_notes out unit_ms min_ms max_notes = Ok out.
Proof.
  intros Hu Hn _ _ Hout _ Hadj.
  assert (Hpass : passes out (inject_Z unit_ms) min_ms max_notes = Ok out).
  { unfold SimplifyHeader.simplify_notes in Hout. destruct notes as [|x notes].
    - injection Hout as <-. unfold passes. simpl.
      now rewrite cap_short by (simpl; lia).
    - destruct (passes_inv unit_ms Hu min_ms max_notes x notes)
        as (out' & Hout' & _ & Hpm & Hsh).
      rewrite Hout in Hout'. injection Hout' as <-.
      apply passes_fix; try assumption.
      unfold passes in Hout.
      destruct (for_each _ _ _) as [q|e]; [|discriminate]. simpl in Hout.
      injection Hout as <-. now apply cap_length. }
  unfold SimplifyHeader.simplify_notes. now destruct out.
Qed.

Lemma C6_second_pass_stable_witness :
  SimplifyHeader.simplify_notes [(440, 200); (0, 100); (440, 200)] 10 80 300
    = Ok [(440, 200); (0, 100); (440, 200)].
Proof.
  apply (C6_second_pass_stable
           [(440, 203); (0, 50); (0, 48); (440, 199)]
           [(440, 200); (0, 100); (440, 200)] 10 80 300).
  - lia.
  - lia.
  - repeat constructor; simpl; lia.
  - vm_compute. reflexivity.
  - vm_compute. reflexivity.
  - vm_compute. reflexivity.
  - simpl. repeat split; lia.
Defined.

(** C6 as stated fails.  Absorbing the short rest leaves two neighbours of
    frequency 440, which only a second pass merges; and with the fractional
    unit 62.5 of [midi_to_buzzer] an absorbed total (187 + 62 = 249) is
    quantized again (to 250) by a second pass. *)
Lemma C6_counterexample :
  SimplifyHeader.simplify_notes [(440, 200); (0, 10); (440, 200)] 10 80 300
    = Ok [(440, 210); (440, 200)] /\
  SimplifyHeader.simplify_notes [(440, 210); (440, 200)] 10 80 300
    = Ok [(440, 410)] /\
  MidiToBuzzer.simplify_notes [(440, 187); (0, 62)] 500 8 80 400
    = Ok [(440, 249)] /\
  MidiToBuzzer.simplify_notes [(440, 249)] 500 8 80 400
    = Ok [(440, 250)].
Proof. repeat split; vm_compute; reflexivity. Qed.

End QuantizerClaimsInteger.

(** ** Claims about the tempo conversion, the reducer and the compiler *)

Section MidiClaims.
Import PyNum Quantizer Tempo Reducer Compiler.
Import ReducerSpec TempoSpec CompilerSpec.

(** C3 fails on exact ties, against the docstring of [ticks_to_ms] as well,
    which promises the milliseconds rounded half up: 5 ticks at the default
    tempo and 1000 ticks per beat are exactly 2.5 ms, and the code returns 2
    where rounding half away from zero gives 3; 5 ticks backwards are
    -2.5 ms and come out as -2, not -3; and 1 tick, 0.5 ms, comes out as 0,
    not 1.  Python 3's [round] sends a tie to the even neighbour.  (The
    specification's formula also lacks the division by 1000 that turns
    microseconds into milliseconds: it gives 2500.) *)
Theorem C3_ticks_to_ms_ties_to_even :
  (exact_ms 5 None 1000 == 5 # 2)%Q /\
  ticks_to_ms 5 None 1000 = Ok 2 /\
  round_half_away (exact_ms 5 None 1000) = 3 /\
  ticks_to_ms (-5) (Some 500000) 1000 = Ok (-2) /\
  round_half_away (exact_ms (-5) (Some 500000) 1000) = -3 /\
  ticks_to_ms 1 None 1000 = Ok 0 /\
  round_half_away (exact_ms 1 None 1000) = 1 /\
  time_units_spec 5 500000 1000 = 2500.
Proof. repeat split; vm_compute; reflexivity. Qed.

(** C2, as the code has it: what [main] builds from a file is what the
    specification's compiler gives when the rate in force is, at every
    tick, the tempo of the last [set_tempo] message of the merged stream
    (500000 when there is none): every gap and every tone is converted at
    that one rate, wherever its tick delta lies. *)
Theorem C2_one_rate_for_all_deltas (note_to_freq : Z -> Z) (mid : MidiFile) :
  ticks_per_beat mid <> 0 ->
  let rate := last_tempo (tempo_changes (merged_events mid)) in
  exists events out,
    extract_monophonic mid = Ok (events, rate, ticks_per_beat mid) /\
    notes_of_midi note_to_freq mid = Ok out /\
    compile_spec note_to_freq (fun _ => rate) (ticks_per_beat mid) events = Ok out.
Proof.
  intros Htpb rate. unfold notes_of_midi, extract_monophonic. cbv zeta.
  destruct (build_timeline_spec (results (run_events (merged_events mid))))
    as (tl & -> & _).
  cbn [rbind]. rewrite run_events_tempo. fold rate.
  set (events := map (fun x => (iv_note x, iv_start x, iv_end x)) tl).
  rewrite build_note_array_compile.
  assert (H : exists out,
            compile_spec note_to_freq (fun _ => rate) (ticks_per_beat mid) events = Ok out).
  { unfold compile_spec. destruct events as [|[[n0 s0] e0] events']; [now exists []|].
    now apply compile_from_total. }
  destruct H as (out & Hout). exists events, out.
  split; [reflexivity|]. split; exact Hout.
Qed.

Lemma C2_one_rate_for_all_deltas_witness :
  exists events out,
    extract_monophonic two_tempo_file
      = Ok (events, last_tempo (tempo_changes (merged_events two_tempo_file)),
            ticks_per_beat two_tempo_file) /\
    notes_of_midi (fun n => n) two_tempo_file = Ok out /\
    compile_spec (fun n => n)
      (fun _ => last_tempo (tempo_changes (merged_events two_tempo_file)))
      (ticks_per_beat two_tempo_file) events = Ok out.
Proof.
  apply (C2_one_rate_for_all_deltas (fun n => n) two_tempo_file).
  simpl. lia.
Defined.

(** C2 as stated fails: in [two_tempo_file] the first note lies before the
    tempo change, where the rate in force is 500000 and 480 ticks are 500 ms,
    yet both notes come out 1000 ms long, the rate of the later change.  With
    the rate in force at each tick the specification's compiler gives 500 ms
    and 1000 ms.  In [gap_tempo_file] the gap lies before the change and
    comes out at the later rate as well. *)
Lemma C2_counterexample :
  (forall note_to_freq,
     notes_of_midi note_to_freq two_tempo_file
       = Ok [(note_to_freq 60, 1000); (note_to_freq 62, 1000)]) /\
  extract_monophonic two_tempo_file = Ok ([(60, 0, 480); (62, 480, 960)], 1000000, 480) /\
  rate_in_force (tempo_changes (merged_events two_tempo_file)) 0 = 500000 /\
  rate_in_force (tempo_changes (merged_events two_tempo_file)) 480 = 1000000 /\
  ticks_to_ms (480 - 0) (Some 500000) 480 = Ok 500 /\
  (forall note_to_freq,
     compile_spec note_to_freq
       (rate_in_force (tempo_changes (merged_events two_tempo_file))) 480
       [(60, 0, 480); (62, 480, 960)]
       = Ok [(note_to_freq 60, 500); (note_to_freq 62, 1000)]) /\
  (forall note_to_freq,
     notes_of_midi note_to_freq gap_tempo_file
       = Ok [(note_to_freq 60, 1000); (0, 1000); (note_to_freq 62, 1000)]) /\
  (forall note_to_freq,
     compile_spec note_to_freq
       (rate_in_force (tempo_changes (merged_events gap_tempo_file))) 480
       [(60, 0, 480); (62, 960, 1440)]
       = Ok [(note_to_freq 60, 500); (0, 500); (note_to_freq 62, 1000)]).
Proof. repeat split; intros; vm_compute; reflexivity. Qed.

(** C7: [extract_monophonic] returns a timeline, and for every start tick
    that some closed interval has, the timeline holds exactly one interval of
    that start tick; it is one of the group, no interval of the group has a
    greater velocity, and none of the same velocity has a greater pitch.  A
    tick without closed intervals has no entry.  The reducer is a function of
    the file, so equal files give equal winners. *)
Theorem C7_one_winner_per_start_tick (mid : MidiFile) :
  exists timeline,
    timeline_of mid = Ok timeline /\
    extract_monophonic mid =
      Ok (map (fun x => (iv_note x, iv_start x, iv_end x)) timeline,
          tempo (run_events (merged_events mid)), ticks_per_beat mid) /\
    forall s,
      match filter (starts_at s) (closed_intervals mid) with
      | [] => filter (starts_at s) timeline = []
      | group =>
          exists w, filter (starts_at s) timeline = [w] /\
            w ∈ group /\ beats_all w group
      end.
Proof.
  unfold timeline_of, extract_monophonic, closed_intervals.
  destruct (build_timeline_spec (results (run_events (merged_events mid))))
    as (tl & Htl & Hspec).
  exists tl. rewrite Htl. split; [reflexivity|]. split; [reflexivity | exact Hspec].
Qed.

(** A chord of three notes on tick 0: velocity decides, then pitch. *)
Example chord_loudest_wins :
  extract_monophonic
    {| ticks_per_beat := 480;
       tracks := [[note_on 0 60 100; note_on 0 64 90; note_off 480 60 0;
                   note_off 0 64 0];
                  [note_on 0 67 80; note_off 480 67 0]] |}
    = Ok ([(60, 0, 480)], 500000, 480).
Proof. reflexivity. Qed.

Example chord_velocities_swapped :
  extract_monophonic
    {| ticks_per_beat := 480;
       tracks := [[note_on 0 60 90; note_on 0 64 100; note_off 480 60 0;
                   note_off 0 64 0];
                  [note_on 0 67 80; note_off 480 67 0]] |}
    = Ok ([(64, 0, 480)], 500000, 480).
Proof. reflexivity. Qed.

Example chord_equal_velocity_highest_pitch :
  extract_monophonic
    {| ticks_per_beat := 480;
       tracks := [[note_on 0 60 100; note_on 0 64 100; note_off 480 60 0;
                   note_off 0 64 0];
                  [note_on 0 67 100; note_off 400 67 0]] |}
    = Ok ([(67, 0, 400)], 500000, 480).
Proof. reflexivity. Qed.

(** C9: [extract_monophonic] returns for every file.  A NoteEnd (a
    [note_off], or a [note_on] of velocity 0) for a pitch that is not sounding
    leaves the loop state as it is.  Every closed interval was closed by a
    NoteEnd of the stream for its pitch, so a note that is never ended gives
    no segment: a NoteStart at the end of a stream adds no interval, and the
    file that only holds [note_on 60] with velocity 100 has an empty
    timeline. *)
Theorem C9_malformed_streams_tolerated
    (mid : MidiFile) (st : LoopState) (evs : list (Z * Msg)) (t tm n v tpb : Z) :
  active st !! n = None -> 0 < v ->
  (exists out, extract_monophonic mid = Ok out) /\
  event_step st (t, note_off tm n v) = st /\
  event_step st (t, note_on tm n 0) = st /\
  (forall x, x ∈ results (run_events evs) -> exists ev, ev ∈ evs /\ closes ev x) /\
  results (run_events (evs ++ [(t, note_on tm n v)])) = results (run_events evs) /\
  extract_monophonic {| ticks_per_beat := tpb; tracks := [[note_on 0 60 100]] |}
    = Ok ([], 500000, tpb).
Proof.
  intros Hn Hv. split; [|split; [|split; [|split; [|split]]]].
  - unfold extract_monophonic.
    destruct (build_timeline_spec (results (run_events (merged_events mid))))
      as (tl & -> & _).
    simpl. eauto.
  - simpl. now apply close_note_inactive.
  - simpl. now apply close_note_inactive.
  - intros x Hx. unfold run_events in Hx.
    apply results_closed in Hx as [Hx|Hx]; [|exact Hx].
    now apply elem_of_nil in Hx.
  - rewrite run_events_snoc. simpl.
    destruct (Z.gtb_spec v 0); [reflexivity | lia].
  - reflexivity.
Qed.

Lemma C9_malformed_streams_tolerated_witness :
  (exists out, extract_monophonic two_tempo_file = Ok out) /\
  event_step initial_state (7, note_off 7 60 64) = initial_state /\
  event_step initial_state (7, note_on 7 60 0) = initial_state /\
  (forall x, x ∈ results (run_events [(0, note_on 0 62 90); (5, note_off 5 62 0)]) ->
     exists ev, ev ∈ [(0, note_on 0 62 90); (5, note_off 5 62 0)] /\ closes ev x) /\
  results (run_events ([(0, note_on 0 62 90); (5, note_off 5 62 0)]
                         ++ [(7, note_on 7 60 100)]))
    = results (run_events [(0, note_on 0 62 90); (5, note_off 5 62 0)]) /\
  extract_monophonic {| ticks_per_beat := 480; tracks := [[note_on 0 60 100]] |}
    = Ok ([], 500000, 480).
Proof.
  apply (C9_malformed_streams_tolerated two_tempo_file initial_state
           [(0, note_on 0 62 90); (5, note_off 5 62 0)] 7 7 60 100 480).
  - reflexivity.
  - lia.
Defined.

End MidiClaims.

(** ** The header round trip *)

Section HeaderClaims.
Import Quantizer Header HeaderSpec.

(** C10: for every list of notes whose frequencies are non-negative and
    whose durations lie between 0 and 65535, parsing the text that
    [emit_header] writes (under the guard name [main] uses) returns the
    list itself, in the same order. *)
Theorem C10_emit_parse_round_trip (notes : list Note) :
  Forall (fun n => 0 <= fst n /\ 0 <= snd n <= 65535) notes ->
  parse_header (emit_header notes default_guard) = Ok notes.
Proof.
  intros H. rewrite parse_emit_clamped.
  - f_equal. induction H as [|[f d] notes [Hf Hd] _ IH]; [reflexivity|].
    cbn [map fst snd]. rewrite IH. now rewrite clamp_duration_id.
  - eapply Forall_impl; [exact H|]. intros n [Hn _]. exact Hn.
Qed.

Lemma C10_emit_parse_round_trip_witness :
  parse_header (emit_header [(440, 128); (0, 65535); (0, 0); (12345678, 1)] default_guard)
    = Ok [(440, 128); (0, 65535); (0, 0); (12345678, 1)].
Proof.
  apply (C10_emit_parse_round_trip [(440, 128); (0, 65535); (0, 0); (12345678, 1)]).
  repeat constructor; simpl; lia.
Defined.

End HeaderClaims.

(** * Further properties of the quantizer *)

Section QuantizerMore.
Import PyNum Quantizer QuantizerSpec.

(** *** Neighbours of equal frequency *)

Lemma no_adjacent_eq_snoc (l : list Note) (x : Note) :
  no_adjacent_eq l -> (forall y, py_last l = Some y -> fst y <> fst x) ->
  no_adjacent_eq (l ++ [x]).
Proof.
  induction l as [|a l IH]; intros Hl Hx; [exact I|].
  destruct l as [|b l].
  - simpl. split; [|exact I]. now apply Hx.
  - destruct Hl as [Hab Hl]. split; [exact Hab|]. apply IH; [exact Hl|].
    intros y Hy. apply Hx. exact Hy.
Qed.

Lemma no_adjacent_eq_last (l : list Note) (y y' : Note) :
  fst y = fst y' -> no_adjacent_eq (l ++ [y]) -> no_adjacent_eq (l ++ [y']).
Proof.
  intros E. induction l as [|a l IH]; intros H; [exact I|].
  destruct l as [|b l].
  - simpl in *. split; [|exact I]. rewrite <- E. apply H.
  - destruct H as [Hab H]. split; [exact Hab|]. now apply IH.
Qed.

(** *** The three passes, case by case *)

Lemma merge_step_cases (acc : list Note) (f d : Z) :
  (exists l' ld, acc = l' ++ [(f, ld)] /\
     merge_step acc (f, d) = l' ++ [(f, ld + d)]) \/
  (merge_step acc (f, d) = acc ++ [(f, d)] /\
     forall y, py_last acc = Some y -> fst y <> f).
Proof.
  unfold merge_step. destruct (py_last acc) as [[lf ld]|] eqn:E.
  - destruct (Z.eqb_spec lf f) as [->|Hne].
    + left. apply py_last_Some in E as [l' ->]. exists l', ld.
      split; [reflexivity | apply set_last_snoc].
    + right. split; [reflexivity|]. intros y [= <-]. exact Hne.
  - right. split; [reflexivity|]. intros y Hy. discriminate.
Qed.

Lemma quant_step_cases (unit : Q) (min_ms : Z) (quant : list Note) (f d : Z) :
  ~ (unit == 0)%Q ->
  let d2 := quantum unit d in
  (min_ms <= d2 /\ quant_step unit min_ms quant (f, d) = Ok (quant ++ [(f, d2)])) \/
  (d2 < min_ms /\ quant = [] /\ quant_step unit min_ms quant (f, d) = Ok [(0, d2)]) \/
  (d2 < min_ms /\ exists l' lf ld, quant = l' ++ [(lf, ld)] /\
     quant_step unit min_ms quant (f, d) = Ok (l' ++ [(lf, ld + d2)])).
Proof.
  intros Hu d2. unfold quant_step. rewrite (quantize_ok _ _ Hu). cbn [rbind].
  fold d2. destruct (Z.ltb_spec d2 min_ms) as [Hlt|Hge].
  - right. destruct (py_last quant) as [[lf ld]|] eqn:E.
    + right. split; [exact Hlt|]. apply py_last_Some in E as [l' ->].
      exists l', lf, ld. split; [reflexivity|]. now rewrite set_last_snoc.
    + left. apply py_last_None in E. subst quant. now repeat split.
  - left. split; [exact Hge | reflexivity].
Qed.

Lemma cap_cases (max_notes : Z) (quant : list Note) :
  cap max_notes quant = quant \/
  (exists l' lf ld tail, quant = (l' ++ [(lf, ld)]) ++ tail /\
     cap max_notes quant = l' ++ [(lf, ld + sum_durations tail)]) \/
  cap max_notes quant = [(0, sum_durations quant)].
Proof.
  unfold cap. destruct (Z.of_nat (length quant) >? max_notes); [|now left].
  right. pose proof (slices_partition quant (max_notes - 1)) as HP.
  destruct (py_last (slice_to quant (max_notes - 1))) as [[lf ld]|] eqn:E.
  - left. apply py_last_Some in E as [l' E]. exists l', lf, ld, (slice_from quant (max_notes - 1)).
    rewrite E in *. split; [symmetry; exact HP | apply set_last_snoc].
  - right. apply py_last_None in E. rewrite E in HP. simpl in HP. now rewrite HP.
Qed.

(** *** Pass 1 *)

Lemma merge_from_spec (notes acc : list Note) :
  no_adjacent_eq acc ->
  let out := fold_left merge_step notes acc in
  no_adjacent_eq out /\
  sum_durations out = sum_durations acc + sum_durations notes /\
  (length out <= length acc + length notes)%nat /\
  (forall x, x ∈ out -> fst x ∈ map fst acc \/ fst x ∈ map fst notes).
Proof.
  revert acc. induction notes as [|[f d] notes IH]; intros acc Hacc; cbn [fold_left].
  - cbv zeta. split; [exact Hacc|]. split; [unfold sum_durations; simpl; lia|].
    split; [lia|]. intros x Hx. left. now apply list_elem_of_fmap_2.
  - destruct (merge_step_cases acc f d) as [(l' & ld & -> & ->) | [-> Hlast]].
    + destruct (IH (l' ++ [(f, ld + d)])) as (H1 & H2 & H3 & H4).
      { now apply (no_adjacent_eq_last l' (f, ld) (f, ld + d)). }
      split; [exact H1|]. split; [|split].
      * rewrite H2, !sum_durations_app. unfold sum_durations. simpl. lia.
      * rewrite !length_app in *. simpl in *. lia.
      * intros x Hx. destruct (H4 x Hx) as [H|H].
        -- rewrite map_app in *. apply elem_of_app in H as [H|H].
           ++ left. apply elem_of_app. now left.
           ++ left. apply elem_of_app. now right.
        -- right. simpl. now right.
    + destruct (IH (acc ++ [(f, d)])) as (H1 & H2 & H3 & H4).
      { apply no_adjacent_eq_snoc; [exact Hacc | exact Hlast]. }
      split; [exact H1|]. split; [|split].
      * rewrite H2, sum_durations_app. unfold sum_durations. simpl. lia.
      * rewrite length_app in *. simpl in *. lia.
      * intros x Hx. destruct (H4 x Hx) as [H|H].
        -- rewrite map_app in H. apply elem_of_app in H as [H|H]; [now left|].
           right. simpl in *. apply list_elem_of_singleton in H. rewrite H. now left.
        -- right. simpl. now right.
Qed.

Lemma merge_spec (notes : list Note) :
  no_adjacent_eq (merge notes) /\
  sum_durations (merge notes) = sum_durations notes /\
  (length (merge notes) <= length notes)%nat /\
  (forall x, x ∈ merge notes -> fst x ∈ map fst notes).
Proof.
  destruct (merge_from_spec notes [] I) as (H1 & H2 & H3 & H4).
  split; [exact H1|]. split; [exact H2|]. split; [exact H3|].
  intros x Hx. destruct (H4 x Hx) as [H|H]; [|exact H].
  now apply elem_of_nil in H.
Qed.

(** *** Pass 2 *)

Lemma quant_pass_size (unit : Q) (min_ms : Z) (merged acc : list Note) :
  ~ (unit == 0)%Q ->
  exists out, for_each (quant_step unit min_ms) merged acc = Ok out /\
    (length out <= length acc + length merged)%nat /\
    (acc <> [] \/ merged <> [] -> out <> []) /\
    (forall x, x ∈ out ->
       fst x = 0 \/ fst x ∈ map fst acc \/ fst x ∈ map fst merged).
Proof.
  intros Hu. revert acc. induction merged as [|[f d] merged IH]; intros acc; cbn [for_each].
  - exists acc. split; [reflexivity|]. split; [lia|]. split.
    + intros [H|H]; [exact H | congruence].
    + intros x Hx. right. left. now apply list_elem_of_fmap_2.
  - destruct (quant_step_cases unit min_ms acc f d Hu)
      as [[_ ->] | [(_ & -> & ->) | (_ & l' & lf & ld & -> & ->)]]; cbn [rbind].
    + destruct (IH (acc ++ [(f, quantum unit d)])) as (out & -> & H1 & H2 & H3).
      exists out. split; [reflexivity|]. rewrite length_app in H1. simpl in *.
      split; [lia|]. split.
      * intros _. apply H2. left. now destruct acc.
      * intros x Hx. destruct (H3 x Hx) as [H|[H|H]]; [now left | | right; right; now right].
        rewrite map_app in H. apply elem_of_app in H as [H|H]; [right; now left|].
        right. right. apply list_elem_of_singleton in H. rewrite H. now left.
    + destruct (IH [(0, quantum unit d)]) as (out & -> & H1 & H2 & H3).
      exists out. split; [reflexivity|]. simpl in *. split; [lia|]. split.
      * intros _. apply H2. left. discriminate.
      * intros x Hx. destruct (H3 x Hx) as [H|[H|H]]; [now left | | right; right; now right].
        apply list_elem_of_singleton in H. now left.
    + destruct (IH (l' ++ [(lf, ld + quantum unit d)])) as (out & -> & H1 & H2 & H3).
      exists out. split; [reflexivity|]. rewrite !length_app in *. simpl in *.
      split; [lia|]. split.
      * intros _. apply H2. left. now destruct l'.
      * intros x Hx. destruct (H3 x Hx) as [H|[H|H]]; [now left | | right; right; now right].
        right. left. now rewrite map_app in *.
Qed.

(** *** Pass 3 *)

Lemma cap_size (max_notes : Z) (quant : list Note) :
  quant <> [] ->
  cap max_notes quant <> [] /\
  (length (cap max_notes quant) <= length quant)%nat /\
  (forall x, x ∈ cap max_notes quant -> fst x = 0 \/ fst x ∈ map fst quant).
Proof.
  intros Hne.
  destruct (cap_cases max_notes quant) as [-> | [(l' & lf & ld & tail & E & ->) | ->]].
  - split; [exact Hne|]. split; [lia|]. intros x Hx. right. now apply list_elem_of_fmap_2.
  - split; [now destruct l'|]. split.
    + rewrite E, !length_app. simpl. lia.
    + intros x Hx. right. rewrite E, !map_app. apply elem_of_app. left.
      apply (list_elem_of_fmap_2 fst) in Hx. now rewrite map_app in Hx.
  - split; [discriminate|]. split.
    + destruct quant; [congruence | simpl; lia].
    + intros x Hx. apply list_elem_of_singleton in Hx. subst x. now left.
Qed.

(** *** All passes *)

Lemma passes_size (n : Note) (notes : list Note) (unit : Q) (min_ms max_notes : Z) :
  ~ (unit == 0)%Q ->
  exists out, passes (n :: notes) unit min_ms max_notes = Ok out /\
    out <> [] /\ (length out <= length (n :: notes))%nat /\
    (forall x, x ∈ out -> fst x = 0 \/ fst x ∈ map fst (n :: notes)).
Proof.
  intros Hu. unfold passes. cbv zeta.
  destruct (merge_spec (n :: notes)) as (_ & _ & Hlen & Hfreq).
  destruct (quant_pass_size unit min_ms (merge (n :: notes)) [] Hu)
    as (q & -> & Hq1 & Hq2 & Hq3).
  cbn [rbind]. assert (Hq : q <> []).
  { apply Hq2. right. apply merge_nonempty. }
  destruct (cap_size max_notes q Hq) as (Hc1 & Hc2 & Hc3).
  eexists; split; [reflexivity|]. split; [exact Hc1|]. split.
  - simpl in *. lia.
  - intros x Hx. destruct (Hc3 x Hx) as [H|H]; [now left|].
    apply list_elem_of_fmap in H as (y & E & Hy). rewrite E.
    destruct (Hq3 y Hy) as [H|[H|H]]; [now left | now apply elem_of_nil in H |].
    apply list_elem_of_fmap in H as (z & -> & Hz). right. now apply Hfreq.
Qed.

(** The unit [midi_to_buzzer] computes is defined and non-zero. *)
Lemma midi_unit (quarter_ms : Q) (denom : Z) :
  ~ (quarter_ms == 0)%Q -> denom <> 0 ->
  py_truediv quarter_ms (inject_Z denom) = Ok (quarter_ms / inject_Z denom)%Q /\
  ~ (quarter_ms / inject_Z denom == 0)%Q.
Proof.
  intros Hq Hd. unfold py_truediv.
  destruct (Qeq_bool (inject_Z denom) 0) eqn:E.
  - apply Qeq_bool_iff in E. now apply inject_Z_nonzero in E.
  - split; [reflexivity|]. apply Qdiv_nonzero; [exact Hq | now apply inject_Z_nonzero].
Qed.

End QuantizerMore.

Section QuantizerShape.
Import PyNum Quantizer QuantizerSpec MoreSpec.

Lemma quantum_nonneg (unit : Q) (d : Z) : (0 < unit)%Q -> 0 <= quantum unit d.
Proof.
  intros Hu. unfold quantum, py_int. cbv zeta.
  set (q := if py_round (inject_Z d / unit) <=? 0 then 1
            else py_round (inject_Z d / unit)).
  assert (Hq : 0 < q).
  { unfold q. destruct (Z.leb_spec (py_round (inject_Z d / unit)) 0); lia. }
  apply Z.quot_pos; [|lia].
  unfold Qlt in Hu. simpl in *. nia.
Qed.

Lemma Qpos_nonzero (unit : Q) : (0 < unit)%Q -> ~ (unit == 0)%Q.
Proof. intros H E. rewrite E in H. now apply Qlt_irrefl in H. Qed.

Lemma shape_inv_grow (m : Z) (l : list Note) (f d t : Z) :
  shape_inv m (l ++ [(f, d)]) -> 0 <= t -> shape_inv m (l ++ [(f, d + t)]).
Proof.
  intros [Hn Hs] Ht. split; [|now apply kept_shape_grow_last].
  apply Forall_app in Hn as [H1 H2]. apply Forall_app. split; [exact H1|].
  constructor; [|constructor]. apply Forall_inv in H2. simpl in *. lia.
Qed.

Lemma quant_step_shape (unit : Q) (m : Z) (quant : list Note) (n : Note) :
  (0 < unit)%Q -> shape_inv m quant ->
  exists out, quant_step unit m quant n = Ok out /\ shape_inv m out.
Proof.
  intros Hu Hq. destruct n as [f d].
  pose proof (quantum_nonneg unit d Hu) as Hd2.
  destruct (quant_step_cases unit m quant f d (Qpos_nonzero _ Hu))
    as [[Hge ->] | [(_ & -> & ->) | (_ & l' & lf & ld & -> & ->)]].
  - eexists; split; [reflexivity|]. destruct Hq as [Hn Hs]. split.
    + apply Forall_app. split; [exact Hn|]. now repeat constructor.
    + now apply kept_shape_snoc.
  - eexists; split; [reflexivity|]. split; [now repeat constructor|].
    split; [|constructor]. intros f' d' [= <- <-]. now left.
  - eexists; split; [reflexivity|]. now apply shape_inv_grow.
Qed.

Lemma sum_durations_nonneg (l : list Note) :
  Forall (fun n => 0 <= snd n) l -> 0 <= sum_durations l.
Proof.
  unfold sum_durations. induction 1 as [|[f d] l Hd _ IH]; simpl in *; lia.
Qed.

Lemma cap_shape (m max_notes : Z) (quant : list Note) :
  shape_inv m quant -> shape_inv m (cap max_notes quant).
Proof.
  intros Hq.
  destruct (cap_cases max_notes quant) as [-> | [(l' & lf & ld & tail & E & ->) | ->]].
  - exact Hq.
  - rewrite E in Hq. destruct Hq as [Hn Hs]. apply Forall_app in Hn as [Hk Ht].
    apply shape_inv_grow; [|now apply sum_durations_nonneg].
    split; [exact Hk | now apply kept_shape_prefix in Hs].
  - destruct Hq as [Hn _]. split.
    + constructor; [|constructor]. simpl. now apply sum_durations_nonneg.
    + split; [|constructor]. intros f' d' [= <- <-]. now left.
Qed.

Lemma passes_shape (notes : list Note) (unit : Q) (m max_notes : Z) :
  (0 < unit)%Q ->
  exists out, passes notes unit m max_notes = Ok out /\ shape_inv m out.
Proof.
  intros Hu. unfold passes. cbv zeta.
  destruct (for_each_invariant (quant_step unit m) (shape_inv m) (merge notes))
    with (s := @nil Note) as (q & -> & Hq).
  - intros s x Hs. now apply quant_step_shape.
  - split; [constructor|]. split; [discriminate | constructor].
  - cbn [rbind]. eexists; split; [reflexivity|]. now apply cap_shape.
Qed.

End QuantizerShape.

(** ** Further statements about the quantizer *)

Section QuantizerExtras.
Import PyNum Quantizer QuantizerSpec.

(** X1: for every count bound of at least one, both [simplify_notes] return
    at most [max_notes] entries, whatever the non-zero unit and [min_ms]. *)
Theorem X1_count_bound_from_one
    (notes : list Note) (unit_ms : Z) (quarter_ms : Q) (denom min_ms max_notes : Z) :
  unit_ms <> 0 -> ~ (quarter_ms == 0)%Q -> denom <> 0 -> 1 <= max_notes ->
  (exists out,
      SimplifyHeader.simplify_notes notes unit_ms min_ms max_notes = Ok out /\
      Z.of_nat (length out) <= max_notes) /\
  (exists out,
      MidiToBuzzer.simplify_notes notes quarter_ms denom min_ms max_notes = Ok out /\
      Z.of_nat (length out) <= max_notes).
Proof.
  intros Hu Hq Hd Hn. destruct (midi_unit quarter_ms denom Hq Hd) as [Hdiv Hunit].
  unfold SimplifyHeader.simplify_notes, MidiToBuzzer.simplify_notes.
  destruct notes as [|x notes].
  - split; exists []; (split; [reflexivity | simpl; lia]).
  - rewrite Hdiv. cbn [rbind]. split.
    + apply count_bound_from_one; [now apply inject_Z_nonzero | exact Hn].
    + now apply count_bound_from_one.
Qed.

Lemma X1_count_bound_from_one_witness :
  (exists out,
      SimplifyHeader.simplify_notes [(440, 128); (0, 128); (880, 128)] 128 80 2 = Ok out /\
      Z.of_nat (length out) <= 2) /\
  (exists out,
      MidiToBuzzer.simplify_notes [(440, 128); (0, 128); (880, 128)] 500 8 80 2 = Ok out /\
      Z.of_nat (length out) <= 2).
Proof.
  apply (X1_count_bound_from_one [(440, 128); (0, 128); (880, 128)] 128 500 8 80 2).
  - lia.
  - discriminate.
  - lia.
  - lia.
Defined.

(** X2: on a non-empty list and a non-zero unit both [simplify_notes] return
    a non-empty list that is no longer than the input, for every [min_ms]
    and every [max_notes], zero and negative bounds included. *)
Theorem X2_neither_empties_nor_grows
    (notes : list Note) (unit_ms : Z) (quarter_ms : Q) (denom min_ms max_notes : Z) :
  notes <> [] -> unit_ms <> 0 -> ~ (quarter_ms == 0)%Q -> denom <> 0 ->
  (exists out,
      SimplifyHeader.simplify_notes notes unit_ms min_ms max_notes = Ok out /\
      out <> [] /\ (length out <= length notes)%nat) /\
  (exists out,
      MidiToBuzzer.simplify_notes notes quarter_ms denom min_ms max_notes = Ok out /\
      out <> [] /\ (length out <= length notes)%nat).
Proof.
  intros Hne Hu Hq Hd. destruct (midi_unit quarter_ms denom Hq Hd) as [Hdiv Hunit].
  unfold SimplifyHeader.simplify_notes, MidiToBuzzer.simplify_notes.
  destruct notes as [|x notes]; [congruence|]. rewrite Hdiv. cbn [rbind]. split.
  - destruct (passes_size x notes (inject_Z unit_ms) min_ms max_notes
                (inject_Z_nonzero _ Hu)) as (out & -> & H1 & H2 & _).
    now exists out.
  - destruct (passes_size x notes _ min_ms max_notes Hunit) as (out & -> & H1 & H2 & _).
    now exists out.
Qed.

Lemma X2_neither_empties_nor_grows_witness :
  (exists out,
      SimplifyHeader.simplify_notes [(440, 5); (0, 5)] 128 80 0 = Ok out /\
      out <> [] /\ (length out <= length [(440, 5); (0, 5)])%nat) /\
  (exists out,
      MidiToBuzzer.simplify_notes [(440, 5); (0, 5)] 500 8 80 0 = Ok out /\
      out <> [] /\ (length out <= length [(440, 5); (0, 5)])%nat).
Proof.
  apply (X2_neither_empties_nor_grows [(440, 5); (0, 5)] 128 500 8 80 0).
  - discriminate.
  - lia.
  - discriminate.
  - lia.
Defined.

(** X3: every frequency both [simplify_notes] return is a frequency of the
    input or 0, the frequency of a rest: no new pitch is made up. *)
Theorem X3_frequencies_from_input
    (notes : list Note) (unit_ms : Z) (quarter_ms : Q) (denom min_ms max_notes : Z) :
  unit_ms <> 0 -> ~ (quarter_ms == 0)%Q -> denom <> 0 ->
  (exists out,
      SimplifyHeader.simplify_notes notes unit_ms min_ms max_notes = Ok out /\
      forall x, x ∈ out -> fst x = 0 \/ fst x ∈ map fst notes) /\
  (exists out,
      MidiToBuzzer.simplify_notes notes quarter_ms denom min_ms max_notes = Ok out /\
      forall x, x ∈ out -> fst x = 0 \/ fst x ∈ map fst notes).
Proof.
  intros Hu Hq Hd. destruct (midi_unit quarter_ms denom Hq Hd) as [Hdiv Hunit].
  unfold SimplifyHeader.simplify_notes, MidiToBuzzer.simplify_notes.
  destruct notes as [|x notes].
  - split; exists []; (split; [reflexivity|]); intros y Hy; now apply elem_of_nil in Hy.
  - rewrite Hdiv. cbn [rbind]. split.
    + destruct (passes_size x notes (inject_Z unit_ms) min_ms max_notes
                  (inject_Z_nonzero _ Hu)) as (out & -> & _ & _ & H).
      now exists out.
    + destruct (passes_size x notes _ min_ms max_notes Hunit) as (out & -> & _ & _ & H).
      now exists out.
Qed.

Lemma X3_frequencies_from_input_witness :
  (exists out,
      SimplifyHeader.simplify_notes [(440, 5); (0, 500); (880, 300)] 128 80 300 = Ok out /\
      forall x, x ∈ out -> fst x = 0 \/ fst x ∈ map fst [(440, 5); (0, 500); (880, 300)]) /\
  (exists out,
      MidiToBuzzer.simplify_notes [(440, 5); (0, 500); (880, 300)] 500 8 80 300 = Ok out /\
      forall x, x ∈ out -> fst x = 0 \/ fst x ∈ map fst [(440, 5); (0, 500); (880, 300)]).
Proof.
  apply (X3_frequencies_from_input [(440, 5); (0, 500); (880, 300)] 128 500 8 80 300).
  - lia.
  - discriminate.
  - lia.
Defined.

(** X4: the merge pass leaves no two neighbours of equal frequency, keeps
    the total duration, and never lengthens the list. *)
Theorem X4_merge_pass (notes : list Note) :
  no_adjacent_eq (merge notes) /\
  sum_durations (merge notes) = sum_durations notes /\
  (length (merge notes) <= length notes)%nat.
Proof.
  destruct (merge_spec notes) as (H1 & H2 & H3 & _). now repeat split.
Qed.

(** X5: for a positive unit both [simplify_notes] return no negative
    duration; every entry after the first lasts at least [min_ms], and a
    first entry that lasts less is a rest. *)
Theorem X5_short_entries_absorbed
    (notes : list Note) (unit_ms : Z) (quarter_ms : Q) (denom min_ms max_notes : Z) :
  0 < unit_ms -> (0 < quarter_ms)%Q -> 0 < denom ->
  (exists out,
      SimplifyHeader.simplify_notes notes unit_ms min_ms max_notes = Ok out /\
      Forall (fun n => 0 <= snd n) out /\ kept_shape min_ms out) /\
  (exists out,
      MidiToBuzzer.simplify_notes notes quarter_ms denom min_ms max_notes = Ok out /\
      Forall (fun n => 0 <= snd n) out /\ kept_shape min_ms out).
Proof.
  intros Hu Hq Hd.
  destruct (midi_unit quarter_ms denom (Qpos_nonzero _ Hq) ltac:(lia)) as [Hdiv _].
  assert (Hunit : (0 < quarter_ms / inject_Z denom)%Q).
  { apply Qlt_shift_div_l; [|now rewrite Qmult_0_l].
    change 0%Q with (inject_Z 0). now rewrite <- Zlt_Qlt. }
  assert (Hunit' : (0 < inject_Z unit_ms)%Q).
  { change 0%Q with (inject_Z 0). now rewrite <- Zlt_Qlt. }
  unfold SimplifyHeader.simplify_notes, MidiToBuzzer.simplify_notes.
  destruct notes as [|x notes].
  - split; exists []; (split; [reflexivity|]); (split; [constructor|]);
      (split; [discriminate | constructor]).
  - rewrite Hdiv. cbn [rbind]. split.
    + destruct (passes_shape (x :: notes) _ min_ms max_notes Hunit') as (out & -> & H).
      now exists out.
    + destruct (passes_shape (x :: notes) _ min_ms max_notes Hunit) as (out & -> & H).
      now exists out.
Qed.

Lemma X5_short_entries_absorbed_witness :
  (exists out,
      SimplifyHeader.simplify_notes [(440, 5); (0, 500); (880, 3)] 128 200 300 = Ok out /\
      Forall (fun n => 0 <= snd n) out /\ kept_shape 200 out) /\
  (exists out,
      MidiToBuzzer.simplify_notes [(440, 5); (0, 500); (880, 3)] 500 8 200 300 = Ok out /\
      Forall (fun n => 0 <= snd n) out /\ kept_shape 200 out).
Proof.
  apply (X5_short_entries_absorbed [(440, 5); (0, 500); (880, 3)] 128 500 8 200 300).
  - lia.
  - reflexivity.
  - lia.
Defined.

(** X6: with [max_notes = 1] a non-empty list comes out as one single entry
    that carries the whole quantized duration, whatever the float arithmetic
    gives for each merged duration, as long as it raises nothing. *)
Theorem X6_single_entry_at_bound_one
    (qz : Z -> result Z) (q : Z -> Z) (notes : list Note) (min_ms : Z) :
  notes <> [] ->
  (forall n, n ∈ merge notes -> qz (snd n) = Ok (q (snd n))) ->
  exists f,
    Passes.simplify_notes_with qz notes min_ms 1 = Ok [(f, total_of q (merge notes))].
Proof.
  intros Hne Hq.
  destruct (passes_with_sum qz q notes min_ms 1 Hq)
    as (quant & out & _ & Hout & Hcap & _ & Hsum).
  destruct (Hcap Hne) as [Hquant ->].
  destruct (cap_size 1 quant Hquant) as (Hne' & _).
  pose proof (cap_length 1 quant ltac:(lia)) as Hlen.
  destruct (cap 1 quant) as [|[f d] [|y out]]; [congruence | | simpl in Hlen; lia].
  exists f. rewrite Hout. unfold sum_durations in Hsum. simpl in Hsum.
  do 3 f_equal. lia.
Qed.

Lemma X6_single_entry_at_bound_one_witness :
  exists f,
    Passes.simplify_notes_with (quantize (inject_Z 128))
      [(440, 128); (0, 128); (880, 128)] 80 1
    = Ok [(f, total_of (quantum (inject_Z 128))
                (merge [(440, 128); (0, 128); (880, 128)]))].
Proof.
  apply (X6_single_entry_at_bound_one (quantize (inject_Z 128)) (quantum (inject_Z 128))
           [(440, 128); (0, 128); (880, 128)] 80).
  - discriminate.
  - intros n _. apply quantize_ok. discriminate.
Defined.

End QuantizerExtras.

(** * Further properties of the tempo conversion *)

Section TempoMore.
Import PyNum Tempo TempoSpec.

Lemma py_round_monotone (x y : Q) : (x <= y)%Q -> py_round x <= py_round y.
Proof.
  intros Hxy.
  destruct (py_round_nearest x) as [[Hx1 Hx2] Hxe].
  destruct (py_round_nearest y) as [[Hy1 Hy2] Hye].
  destruct (Z.le_gt_cases (py_round x) (py_round y)) as [H|H]; [exact H|].
  exfalso. set (rx := py_round x) in *. set (ry := py_round y) in *.
  assert (H1 : (inject_Z ry + 1 <= inject_Z rx)%Q).
  { change 1%Q with (inject_Z 1). rewrite <- inject_Z_plus, <- Zle_Qle. lia. }
  assert (E : rx = ry + 1).
  { apply inject_Z_injective. rewrite inject_Z_plus. change (inject_Z 1) with 1%Q. lra. }
  assert (Ex : Z.even rx = true) by (apply Hxe; left; lra).
  assert (Ey : Z.even ry = true) by (apply Hye; right; lra).
  rewrite E, Z.even_add, Ey in Ex. discriminate.
Qed.

Lemma rate_of_positive (tempo : option Z) :
  (forall t, tempo = Some t -> 0 < t) ->
  0 < match tempo with None => default_tempo | Some t => t end.
Proof. intros H. destruct tempo as [t|]; [now apply H | reflexivity]. Qed.

Lemma exact_ms_monotone (t1 t2 : Z) (tempo : option Z) (tpb : Z) :
  (forall t, tempo = Some t -> 0 < t) -> 0 < tpb -> t1 <= t2 ->
  (exact_ms t1 tempo tpb <= exact_ms t2 tempo tpb)%Q.
Proof.
  intros Hr Htpb Ht. apply rate_of_positive in Hr. unfold exact_ms.
  set (rate := match tempo with None => default_tempo | Some t => t end) in *.
  unfold Qdiv. apply Qmult_le_compat_r; [|discriminate].
  apply Qmult_le_compat_r.
  - rewrite <- Zle_Qle. nia.
  - apply Qinv_le_0_compat. change 0%Q with (inject_Z 0). rewrite <- Zle_Qle. lia.
Qed.

Lemma exact_ms_zero (tempo : option Z) (tpb : Z) : (exact_ms 0 tempo tpb == 0)%Q.
Proof. unfold exact_ms. rewrite Z.mul_0_l. unfold Qdiv. now rewrite !Qmult_0_l. Qed.

Lemma exact_ms_add (a b : Z) (tempo : option Z) (tpb : Z) :
  tpb <> 0 ->
  (exact_ms (a + b) tempo tpb == exact_ms a tempo tpb + exact_ms b tempo tpb)%Q.
Proof.
  intros Htpb. unfold exact_ms. rewrite Z.mul_add_distr_r, inject_Z_plus.
  field. now apply inject_Z_nonzero.
Qed.

(** X7: for a positive tempo and resolution [ticks_to_ms] is monotone in the
    number of ticks: more ticks never give fewer milliseconds, and no ticks
    at all give 0, so a non-negative delta gives a non-negative duration. *)
Theorem X7_ticks_to_ms_monotone (ticks1 ticks2 : Z) (tempo : option Z) (tpb : Z) :
  (forall t, tempo = Some t -> 0 < t) -> 0 < tpb -> ticks1 <= ticks2 ->
  ticks_to_ms 0 tempo tpb = Ok 0 /\
  exists r1 r2,
    ticks_to_ms ticks1 tempo tpb = Ok r1 /\
    ticks_to_ms ticks2 tempo tpb = Ok r2 /\
    r1 <= r2 /\ (0 <= ticks1 -> 0 <= r1).
Proof.
  intros Hr Htpb Ht. rewrite !ticks_to_ms_ok by lia.
  assert (H0 : py_round (exact_ms 0 tempo tpb) = 0).
  { rewrite (py_round_comp _ _ (exact_ms_zero tempo tpb)). reflexivity. }
  split; [now rewrite H0|]. do 2 eexists. split; [reflexivity|].
  split; [reflexivity|]. split.
  - apply py_round_monotone. now apply exact_ms_monotone.
  - intros Hpos. rewrite <- H0. apply py_round_monotone.
    now apply exact_ms_monotone.
Qed.

Lemma X7_ticks_to_ms_monotone_witness :
  ticks_to_ms 0 None 480 = Ok 0 /\
  exists r1 r2,
    ticks_to_ms 100 None 480 = Ok r1 /\
    ticks_to_ms 101 None 480 = Ok r2 /\
    r1 <= r2 /\ (0 <= 100 -> 0 <= r1).
Proof.
  apply (X7_ticks_to_ms_monotone 100 101 None 480).
  - intros t H. discriminate.
  - lia.
  - lia.
Defined.

(** X8: converting two deltas one by one instead of their sum changes the
    total by at most one millisecond.  The three conversions lie in the
    range where the doubles of [ticks_to_ms] round as the exact quotient
    does. *)
Theorem X8_ticks_to_ms_additive_within_one (a b : Z) (tempo : option Z) (tpb : Z) :
  exact_range a tempo tpb -> exact_range b tempo tpb ->
  exact_range (a + b) tempo tpb ->
  exists ra rb rab,
    ticks_to_ms a tempo tpb = Ok ra /\
    ticks_to_ms b tempo tpb = Ok rb /\
    ticks_to_ms (a + b) tempo tpb = Ok rab /\
    -1 <= rab - (ra + rb) <= 1.
Proof.
  intros [_ Htpb'] _ _.
  assert (Htpb : tpb <> 0) by lia.
  rewrite !ticks_to_ms_ok by exact Htpb.
  do 3 eexists. split; [reflexivity|]. split; [reflexivity|]. split; [reflexivity|].
  pose proof (exact_ms_add a b tempo tpb Htpb) as E.
  destruct (py_round_nearest (exact_ms a tempo tpb)) as [[A1 A2] _].
  destruct (py_round_nearest (exact_ms b tempo tpb)) as [[B1 B2] _].
  destruct (py_round_nearest (exact_ms (a + b) tempo tpb)) as [[C1 C2] _].
  set (ra := py_round (exact_ms a tempo tpb)) in *.
  set (rb := py_round (exact_ms b tempo tpb)) in *.
  set (rab := py_round (exact_ms (a + b) tempo tpb)) in *.
  assert (Hlo : (inject_Z (-2) < inject_Z (rab - (ra + rb)))%Q).
  { unfold Z.sub. rewrite !inject_Z_plus, !inject_Z_opp, inject_Z_plus.
    change (inject_Z (-2)) with (-2)%Q. lra. }
  assert (Hhi : (inject_Z (rab - (ra + rb)) < inject_Z 2)%Q).
  { unfold Z.sub. rewrite !inject_Z_plus, !inject_Z_opp, inject_Z_plus.
    change (inject_Z 2) with 2%Q. lra. }
  rewrite <- Zlt_Qlt in Hlo, Hhi. lia.
Qed.

Lemma X8_ticks_to_ms_additive_within_one_witness :
  exists ra rb rab,
    ticks_to_ms 5 None 1000 = Ok ra /\
    ticks_to_ms 5 None 1000 = Ok rb /\
    ticks_to_ms (5 + 5) None 1000 = Ok rab /\
    -1 <= rab - (ra + rb) <= 1.
Proof.
  apply (X8_ticks_to_ms_additive_within_one 5 5 None 1000);
    vm_compute; repeat split; reflexivity.
Defined.

End TempoMore.

(** * Further properties of the reducer *)

Section SortMore.
Context {A : Type} (key : A -> Z).
Import Reducer MoreSpec.

Lemma insert_by_sorted (x : A) (l : list A) :
  sorted_by key l -> sorted_by key (insert_by key x l).
Proof.
  induction l as [|y l IH]; intros Hl; simpl.
  - split; [constructor | exact I].
  - destruct Hl as [Hy Hl]. destruct (Z.leb_spec (key x) (key y)) as [Hle|Hgt].
    + split; [|split; assumption]. constructor; [exact Hle|].
      eapply Forall_impl; [exact Hy|]. simpl. intros z Hz. lia.
    + split; [|now apply IH]. rewrite insert_by_perm. constructor; [lia | exact Hy].
Qed.

Lemma sort_by_sorted (l : list A) : sorted_by key (sort_by key l).
Proof. induction l as [|x l IH]; simpl; [exact I | now apply insert_by_sorted]. Qed.

Lemma sorted_increasing (l : list A) :
  sorted_by key l -> NoDup (map key l) -> increasing (map key l).
Proof.
  induction l as [|a l IH]; intros Hs Hn; [exact I|].
  destruct Hs as [Ha Hs]. cbn [map] in Hn. apply NoDup_cons in Hn as [Hna Hn].
  destruct l as [|b l]; [exact I|]. cbn [map increasing]. split.
  - apply Forall_inv in Ha. assert (key a <> key b); [|lia].
    intros E. apply Hna. rewrite E. now left.
  - now apply IH.
Qed.

End SortMore.

Section ReducerMore.
Import Reducer ReducerSpec MoreSpec.

(** *** The timeline is ordered *)

Lemma winners_starts (res : list Interval) (keys : list Z) (tl : list Interval) :
  Forall2 (winner_of res) keys tl -> map iv_start tl = keys.
Proof.
  induction 1 as [|k w keys tl Hw _ IH]; [reflexivity|].
  cbn [map]. now rewrite IH, (winner_of_start _ _ _ Hw).
Qed.

Lemma build_timeline_increasing (res : list Interval) :
  exists timeline, build_timeline res = Ok timeline /\
    increasing (map iv_start timeline).
Proof.
  unfold build_timeline. cbv zeta.
  set (R := sort_by iv_start res).
  set (keys := sort_by id (map fst (map_to_list (group_by_start R)))).
  destruct (choose_all R keys []) as (tl & Htl & Hwin).
  { intros k Hk. now apply keys_spec in Hk. }
  rewrite Htl. cbn [rbind app]. eexists; split; [reflexivity|].
  apply sorted_increasing; [apply sort_by_sorted|].
  assert (HP : map iv_start (sort_by iv_start tl) ≡ₚ keys).
  { rewrite <- (winners_starts R keys tl Hwin).
    change (iv_start <$> sort_by iv_start tl ≡ₚ iv_start <$> tl).
    now rewrite sort_by_perm. }
  rewrite HP. apply keys_NoDup.
Qed.

Lemma timeline_from_results (res timeline : list Interval) (x : Interval) :
  build_timeline res = Ok timeline -> x ∈ timeline -> x ∈ res.
Proof.
  intros Hb Hx. destruct (build_timeline_spec res) as (tl & Htl & Hspec).
  rewrite Hb in Htl. injection Htl as <-.
  specialize (Hspec (iv_start x)).
  assert (Hf : x ∈ filter (starts_at (iv_start x)) timeline).
  { apply list_elem_of_filter. split; [reflexivity | exact Hx]. }
  destruct (filter (starts_at (iv_start x)) res) as [|y g] eqn:E.
  - rewrite Hspec in Hf. now apply elem_of_nil in Hf.
  - destruct Hspec as (w & Hw & Hin & _). rewrite Hw in Hf.
    apply list_elem_of_singleton in Hf. subst w. rewrite <- E in Hin.
    now apply list_elem_of_filter in Hin as [_ Hin].
Qed.

(** *** What the loop keeps true *)

Lemma loop_inv_initial (t0 : Z) : loop_inv [] t0 initial_state.
Proof.
  split.
  - intros n s v H. simpl in H. now rewrite lookup_empty in H.
  - intros x Hx. now apply elem_of_nil in Hx.
Qed.

Lemma loop_inv_seen (seen : list (Z * Msg)) (ev : Z * Msg) (t0 t : Z) (st : LoopState) :
  loop_inv seen t0 st -> t0 <= t -> loop_inv (seen ++ [ev]) t st.
Proof.
  intros [Ha Hr] Ht. split.
  - intros n s v H. destruct (Ha n s v H) as (H1 & H2 & tm & H3).
    split; [lia|]. split; [exact H2|]. exists tm. apply elem_of_app. now left.
  - intros x Hx. destruct (Hr x Hx) as (H1 & ev' & H2 & H3).
    split; [exact H1|]. exists ev'. split; [apply elem_of_app; now left | exact H3].
Qed.

Lemma loop_inv_close (seen : list (Z * Msg)) (t n : Z) (st : LoopState) :
  loop_inv seen t st -> loop_inv seen t (close_note st t n).
Proof.
  intros [Ha Hr]. unfold close_note.
  destruct (active st !! n) as [[s v]|] eqn:E; [|now split].
  destruct (Ha n s v E) as (H1 & H2 & tm & H3). split; simpl.
  - intros n' s' v' H. destruct (decide (n = n')) as [<-|Hne].
    + now rewrite lookup_delete_eq in H.
    + rewrite lookup_delete_ne in H by exact Hne. now apply Ha.
  - intros x Hx. apply elem_of_app in Hx as [Hx|Hx]; [now apply Hr|].
    apply list_elem_of_singleton in Hx. subst x. simpl. split; [exact H1|].
    exists (s, note_on tm n v). split; [exact H3|]. simpl. now repeat split.
Qed.

Lemma loop_inv_step (seen : list (Z * Msg)) (t0 : Z) (st : LoopState) (ev : Z * Msg) :
  loop_inv seen t0 st -> t0 <= fst ev ->
  loop_inv (seen ++ [ev]) (fst ev) (event_step st ev).
Proof.
  intros Hinv Ht. pose proof (loop_inv_seen seen ev t0 (fst ev) st Hinv Ht) as H.
  destruct ev as [t [tm n v|tm n v|tm u|tm]]; simpl in *.
  - destruct (Z.gtb_spec v 0) as [Hv|Hv].
    + destruct H as [Ha Hr]. split; simpl; [|exact Hr].
      intros n' s' v' Hl. destruct (decide (n = n')) as [<-|Hne].
      * rewrite lookup_insert_eq in Hl. injection Hl as <- <-.
        split; [lia|]. split; [lia|]. exists tm. apply elem_of_app. right.
        now apply list_elem_of_singleton.
      * rewrite lookup_insert_ne in Hl by exact Hne. now apply Ha.
    + destruct (v =? 0); [now apply loop_inv_close | exact H].
  - now apply loop_inv_close.
  - exact H.
  - exact H.
Qed.

Lemma loop_inv_run (evs seen : list (Z * Msg)) (t0 : Z) (st : LoopState) :
  sorted_by fst evs -> Forall (fun ev => t0 <= fst ev) evs ->
  loop_inv seen t0 st ->
  exists t1, loop_inv (seen ++ evs) t1 (fold_left event_step evs st).
Proof.
  revert seen t0 st. induction evs as [|ev evs IH]; intros seen t0 st Hs Ht Hinv.
  - exists t0. now rewrite app_nil_r.
  - cbn [fold_left]. destruct Hs as [Hev Hs]. apply Forall_cons in Ht as [Ht _].
    destruct (IH (seen ++ [ev]) (fst ev) (event_step st ev) Hs Hev) as (t1 & H).
    { now apply (loop_inv_step seen t0). }
    exists t1. now rewrite <- app_assoc in H.
Qed.

Lemma closed_intervals_inv (mid : MidiFile) :
  exists t1, loop_inv (merged_events mid) t1 (run_events (merged_events mid)).
Proof.
  unfold run_events.
  assert (Hs : sorted_by fst (merged_events mid)) by apply sort_by_sorted.
  destruct (merged_events mid) as [|ev evs] eqn:E.
  - exists 0. apply loop_inv_initial.
  - destruct (loop_inv_run (ev :: evs) [] (fst ev) initial_state Hs) as (t1 & H).
    + destruct Hs as [Hev _]. constructor; [lia | exact Hev].
    + apply loop_inv_initial.
    + exists t1. exact H.
Qed.

Lemma segments_end_after_start (mid : MidiFile) :
  exists events,
    extract_monophonic mid
      = Ok (events, tempo (run_events (merged_events mid)), ticks_per_beat mid) /\
    forall n s e, (n, s, e) ∈ events -> s <= e.
Proof.
  unfold extract_monophonic. cbv zeta.
  destruct (build_timeline_spec (results (run_events (merged_events mid))))
    as (tl & Htl & _).
  rewrite Htl. cbn [rbind]. eexists. split; [reflexivity|].
  intros n s e Hin. apply list_elem_of_fmap in Hin as (x & E & Hx).
  apply (timeline_from_results _ _ _ Htl) in Hx.
  destruct (closed_intervals_inv mid) as (t1 & _ & Hr).
  destruct (Hr x Hx) as (Hle & _). now injection E as -> -> ->.
Qed.

End ReducerMore.

(** ** Further statements about the reducer *)

Section ReducerExtras.
Import Reducer ReducerSpec MoreSpec.

(** X9: the segments [extract_monophonic] returns are ordered by strictly
    increasing start tick, so no two of them start on the same tick. *)
Theorem X9_timeline_strictly_increasing (mid : MidiFile) :
  exists events tempo tpb,
    extract_monophonic mid = Ok (events, tempo, tpb) /\
    increasing (map (fun ev => let '(_, s, _) := ev in s) events).
Proof.
  unfold extract_monophonic. cbv zeta.
  destruct (build_timeline_increasing (results (run_events (merged_events mid))))
    as (tl & -> & Hinc).
  cbn [rbind]. do 3 eexists. split; [reflexivity|].
  rewrite map_map. exact Hinc.
Qed.

(** X10: every segment [(note, start, end)] that [extract_monophonic]
    returns is a closed interval of the stream: it ends no earlier than it
    starts, a NoteStart of that pitch with a positive velocity stands at its
    start tick, and a NoteEnd of that pitch stands at its end tick. *)
Theorem X10_segments_are_bracketed (mid : MidiFile) :
  exists events tempo tpb,
    extract_monophonic mid = Ok (events, tempo, tpb) /\
    forall n s e, (n, s, e) ∈ events ->
      s <= e /\
      exists x, x ∈ closed_intervals mid /\
        (iv_note x, iv_start x, iv_end x) = (n, s, e) /\
        (exists ev, ev ∈ merged_events mid /\ opens ev x) /\
        (exists ev, ev ∈ merged_events mid /\ closes ev x).
Proof.
  unfold extract_monophonic, closed_intervals. cbv zeta.
  destruct (build_timeline_spec (results (run_events (merged_events mid))))
    as (tl & Htl & _).
  rewrite Htl. cbn [rbind]. do 3 eexists. split; [reflexivity|].
  intros n s e Hin. apply list_elem_of_fmap in Hin as (x & E & Hx).
  apply (timeline_from_results _ _ _ Htl) in Hx.
  destruct (closed_intervals_inv mid) as (t1 & _ & Hr).
  destruct (Hr x Hx) as (Hle & ev & Hev & Hopen).
  injection E as -> -> ->. split; [exact Hle|]. exists x.
  split; [exact Hx|]. split; [reflexivity|]. split.
  - exists ev. split; [exact Hev | exact Hopen].
  - unfold run_events in Hx. apply results_closed in Hx as [Hx|Hx]; [|exact Hx].
    now apply elem_of_nil in Hx.
Qed.

End ReducerExtras.

(** * Further properties of the duration compiler *)

Section CompilerMore.
Import PyNum Quantizer Tempo TempoSpec Compiler MoreSpec.
Variable note_to_freq : Z -> Z.
Variable tempo : option Z.
Variable tpb : Z.

Lemma note_step_chunk (notes : list Note) (cur n s e : Z) :
  tpb <> 0 ->
  let rest := py_round (exact_ms (s - cur) tempo tpb) in
  let tone := tone_of note_to_freq tempo tpb (n, s, e) in
  (note_step note_to_freq tempo tpb (notes, cur) (n, s, e) = Ok (notes ++ [tone], e) /\
     (s <= cur \/ rest <= 0)) \/
  (note_step note_to_freq tempo tpb (notes, cur) (n, s, e)
     = Ok (notes ++ [(0, rest); tone], e) /\ cur < s /\ 0 < rest).
Proof.
  intros Htpb rest tone. unfold note_step.
  rewrite (ticks_to_ms_ok (e - s) tempo tpb Htpb).
  destruct (Z.gtb_spec s cur) as [Hgt|Hle].
  - rewrite (ticks_to_ms_ok (s - cur) tempo tpb Htpb). cbn [rbind]. fold rest.
    destruct (Z.gtb_spec rest 0) as [Hr|Hr]; cbn [rbind].
    + right. split; [|split; [lia | exact Hr]]. now rewrite <- app_assoc.
    + left. split; [reflexivity | right; exact Hr].
  - cbn [rbind]. left. split; [reflexivity | left; exact Hle].
Qed.

Lemma note_loop_chunks (events : list (Z * Z * Z)) (notes : list Note) (cur : Z) :
  tpb <> 0 ->
  exists chunk cur',
    for_each (note_step note_to_freq tempo tpb) events (notes, cur)
      = Ok (notes ++ chunk, cur') /\
    (length events <= length chunk <= 2 * length events)%nat /\
    (no_gap_from cur events -> chunk = map (tone_of note_to_freq tempo tpb) events) /\
    ((forall n s e, (n, s, e) ∈ events ->
        0 <= py_round (exact_ms (e - s) tempo tpb)) ->
     Forall (fun x => 0 <= snd x) chunk).
Proof.
  intros Htpb. revert notes cur.
  induction events as [|[[n s] e] events IH]; intros notes cur.
  - exists [], cur. rewrite app_nil_r. split; [reflexivity|]. split; [simpl; lia|].
    split; [reflexivity | constructor].
  - cbn [for_each].
    destruct (note_step_chunk notes cur n s e Htpb) as [[-> Hc] | (-> & Hc & Hr)];
      cbn [rbind].
    + destruct (IH (notes ++ [tone_of note_to_freq tempo tpb (n, s, e)]) e)
        as (chunk & cur' & -> & Hlen & Hgap & Hpos).
      exists (tone_of note_to_freq tempo tpb (n, s, e) :: chunk), cur'.
      split; [now rewrite <- app_assoc|]. split; [simpl; lia|]. split.
      * intros [_ Hg]. cbn [map]. now rewrite Hgap.
      * intros H. constructor.
        -- simpl. apply (H n s e). now left.
        -- apply Hpos. intros n' s' e' Hin. apply (H n' s' e'). now right.
    + destruct (IH (notes ++ [(0, py_round (exact_ms (s - cur) tempo tpb));
                              tone_of note_to_freq tempo tpb (n, s, e)]) e)
        as (chunk & cur' & -> & Hlen & Hgap & Hpos).
      exists ((0, py_round (exact_ms (s - cur) tempo tpb))
                :: tone_of note_to_freq tempo tpb (n, s, e) :: chunk), cur'.
      split; [now rewrite <- app_assoc|]. split; [simpl; lia|]. split.
      * intros [Hs _]. lia.
      * intros H. constructor; [simpl; lia|]. constructor.
        -- simpl. apply (H n s e). now left.
        -- apply Hpos. intros n' s' e' Hin. apply (H n' s' e'). now right.
Qed.

Lemma build_note_array_chunks (events : list (Z * Z * Z)) :
  tpb <> 0 ->
  exists out,
    build_note_array note_to_freq events tempo tpb = Ok out /\
    (length events <= length out <= 2 * length events)%nat /\
    (gapless events -> out = map (tone_of note_to_freq tempo tpb) events) /\
    ((forall n s e, (n, s, e) ∈ events ->
        0 <= py_round (exact_ms (e - s) tempo tpb)) ->
     Forall (fun x => 0 <= snd x) out).
Proof.
  intros Htpb. unfold build_note_array, gapless.
  destruct events as [|[[n0 s0] e0] events].
  - exists []. split; [reflexivity|]. split; [simpl; lia|].
    split; [reflexivity | constructor].
  - destruct (note_loop_chunks ((n0, s0, e0) :: events) [] s0 Htpb)
      as (chunk & cur' & -> & H1 & H2 & H3).
    exists chunk. cbn [rbind fst app]. now repeat split.
Qed.

End CompilerMore.

(** ** Further statements about the duration compiler *)

Section CompilerExtras.
Import PyNum Quantizer Tempo TempoSpec Reducer Compiler MoreSpec.



(** X12: for a non-zero resolution [build_note_array] returns at least one
    entry per segment and at most two, a tone and the rest before it. *)
Theorem X12_note_array_length
    (note_to_freq : Z -> Z) (events : list (Z * Z * Z)) (tempo : option Z) (tpb : Z) :
  tpb <> 0 ->
  exists out,
    build_note_array note_to_freq events tempo tpb = Ok out /\
    (length events <= length out <= 2 * length events)%nat.
Proof.
  intros Htpb.
  destruct (build_note_array_chunks note_to_freq tempo tpb events Htpb)
    as (out & -> & H & _).
  now exists out.
Qed.

Lemma X12_note_array_length_witness :
  exists out,
    build_note_array (fun n => n) [(60, 0, 480); (62, 500, 960)] None 480 = Ok out /\
    (length [(60, 0, 480); (62, 500, 960)] <= length out
       <= 2 * length [(60, 0, 480); (62, 500, 960)])%nat.
Proof.
  apply (X12_note_array_length (fun n => n) [(60, 0, 480); (62, 500, 960)] None 480).
  lia.
Defined.

(** X13: with a resolution of zero ticks per beat [build_note_array] still
    returns the empty list for no segments, and raises [ZeroDivisionError]
    as soon as there is one. *)
Theorem X13_note_array_zero_resolution
    (note_to_freq : Z -> Z) (events : list (Z * Z * Z)) (tempo : option Z) :
  events <> [] ->
  build_note_array note_to_freq [] tempo 0 = Ok [] /\
  build_note_array note_to_freq events tempo 0 = Raise ZeroDivisionError.
Proof.
  intros Hne. split; [reflexivity|].
  destruct events as [|[[n s] e] events]; [congruence|].
  unfold build_note_array. cbn [for_each]. unfold note_step at 1.
  destruct (Z.gtb_spec s s); [lia|]. reflexivity.
Qed.

Lemma X13_note_array_zero_resolution_witness :
  build_note_array (fun n => n) [] None 0 = Ok [] /\
  build_note_array (fun n => n) [(60, 0, 480)] None 0 = Raise ZeroDivisionError.
Proof.
  apply (X13_note_array_zero_resolution (fun n => n) [(60, 0, 480)] None).
  discriminate.
Defined.

Lemma notes_of_midi_nonneg (note_to_freq : Z -> Z) (mid : MidiFile) :
  0 < ticks_per_beat mid ->
  0 < last_tempo (tempo_changes (merged_events mid)) ->
  exists out,
    notes_of_midi note_to_freq mid = Ok out /\ Forall (fun x => 0 <= snd x) out.
Proof.
  intros Htpb Hrate. unfold notes_of_midi.
  destruct (segments_end_after_start mid) as (events & Hex & Hle).
  rewrite Hex. cbn [rbind]. rewrite run_events_tempo.
  set (rate := last_tempo (tempo_changes (merged_events mid))) in *.
  destruct (build_note_array_chunks note_to_freq (Some rate) (ticks_per_beat mid)
              events ltac:(lia)) as (out & -> & _ & _ & H).
  exists out. split; [reflexivity|]. apply H. intros n s e Hin.
  assert (E0 : py_round (exact_ms 0 (Some rate) (ticks_per_beat mid)) = 0).
  { rewrite (py_round_comp _ _ (exact_ms_zero _ _)). reflexivity. }
  rewrite <- E0. apply py_round_monotone. apply exact_ms_monotone.
  - intros t [= <-]. exact Hrate.
  - exact Htpb.
  - specialize (Hle n s e Hin). lia.
Qed.

(** X14: for a file with a positive resolution whose last tempo is positive,
    the note array [main] builds holds no negative duration: segments end no
    earlier than they start, and a rest is only written when it lasts. *)
Theorem X14_no_negative_duration_from_a_file
    (note_to_freq : Z -> Z) (mid : MidiFile) :
  0 < ticks_per_beat mid ->
  0 < last_tempo (tempo_changes (merged_events mid)) ->
  exists out,
    notes_of_midi note_to_freq mid = Ok out /\ Forall (fun x => 0 <= snd x) out.
Proof. apply notes_of_midi_nonneg. Qed.

Lemma X14_no_negative_duration_from_a_file_witness :
  exists out,
    notes_of_midi (fun n => n) two_tempo_file = Ok out /\
    Forall (fun x => 0 <= snd x) out.
Proof.
  apply (X14_no_negative_duration_from_a_file (fun n => n) two_tempo_file).
  - reflexivity.
  - reflexivity.
Defined.

End CompilerExtras.

(** * Further properties of the header writers and of the parser *)

Section HeaderMore.
Import Quantizer Header HeaderSpec MidiHeader MoreSpec.
Local Open Scope string_scope.

(** *** Text without an opening brace *)

Lemma no_brace_app (a b : string) : no_brace (a ++ b) = no_brace a && no_brace b.
Proof.
  induction a as [|c a IH]; [reflexivity|]. rewrite append_cons. simpl.
  now rewrite IH, andb_assoc.
Qed.

Lemma all_digits_no_brace (s : string) : all_digits s = true -> no_brace s = true.
Proof.
  induction s as [|c s IH]; simpl; [reflexivity|].
  intros H. apply andb_prop in H as [Hc Hs]. rewrite (IH Hs), andb_true_r.
  destruct (Ascii.eqb_spec c "{") as [->|]; [discriminate | reflexivity].
Qed.

Lemma search_no_brace (s : string) : no_brace s = true -> search s = None.
Proof.
  induction s as [|c s IH]; [reflexivity|]. simpl. intros H.
  apply andb_prop in H as [Hc Hs]. rewrite (IH Hs).
  unfold match_here. cbn [expect]. rewrite Ascii.eqb_sym.
  destruct (Ascii.eqb c "{"); [discriminate | reflexivity].
Qed.

Lemma lines_from_no_brace (s line : string) :
  no_brace line = true -> no_brace s = true ->
  forallb no_match (lines_from line s) = true.
Proof.
  assert (Hnm : forall l, no_brace l = true -> no_match l = true).
  { intros l Hl. unfold no_match. now rewrite (search_no_brace l Hl). }
  revert line. induction s as [|c s IH]; intros line Hline Hs.
  - cbn [lines_from]. destruct line; [reflexivity|]. cbn [forallb].
    now rewrite (Hnm _ Hline).
  - cbn [no_brace] in Hs. apply andb_prop in Hs as [Hc Hs]. cbn [lines_from].
    destruct (Ascii.eqb c newline).
    + cbn [forallb]. rewrite IH by (reflexivity || assumption).
      rewrite Hnm; [reflexivity|]. now rewrite no_brace_app, Hline.
    + apply IH; [|exact Hs]. rewrite no_brace_app, Hline. simpl. now rewrite Hc.
Qed.

(** *** Record lines *)

Lemma py_str_no_brace (n : Z) : no_brace (py_str n) = true.
Proof.
  unfold py_str. destruct n as [|p|p]; [reflexivity | |]; simpl;
    apply all_digits_no_brace, all_digits_uint.
Qed.

Lemma record_line_shape (f d : Z) :
  exists a, no_newline a = true /\ record_line f d = a ++ nl.
Proof.
  unfold record_line.
  exists ("  {" ++ py_str f ++ ", " ++ py_str d ++ "},"). split.
  - rewrite !no_newline_app, !no_newline_py_str. reflexivity.
  - now rewrite !string_app_assoc.
Qed.

Lemma parse_record_line (acc : list Note) (f d : Z) :
  (0 <= f)%Z -> (0 <= d)%Z ->
  parse_line acc (record_line f d) = Ok (acc ++ [(f, d)])%list.
Proof.
  intros Hf Hd.
  destruct (py_str_digits f Hf) as [F1 F2]. destruct (py_str_digits d Hd) as [D1 D2].
  unfold parse_line, record_line.
  rewrite (search_note_line _ _ F1 F2 D1 D2).
  now rewrite (py_int_of_py_str f Hf), (py_int_of_py_str d Hd).
Qed.

Lemma parse_signed_line (acc : list Note) (f d : Z) :
  (f < 0)%Z -> parse_line acc (record_line f d) = Ok acc.
Proof.
  intros Hf. unfold parse_line, record_line.
  destruct f as [|p|p]; [lia | lia |].
  pose (tail := NilEmpty.string_of_uint (Pos.to_uint p) ++ ", " ++ py_str d ++ "}," ++ nl).
  assert (Htail : no_brace tail = true).
  { unfold tail. rewrite !no_brace_app, py_str_no_brace.
    now rewrite (all_digits_no_brace _ (all_digits_uint _)). }
  change (search ("  {" ++ py_str (Z.neg p) ++ ", " ++ py_str d ++ "}," ++ nl))
    with (search (String " " (String " " (String "{" (String "-" tail))))).
  assert (E : search (String " " (String " " (String "{" (String "-" tail)))) = None).
  { cbn [search]. change (match_here (String " " ?s)) with (@None (string * string)).
    change (match_here (String "{" (String "-" tail))) with (@None (string * string)).
    change (match_here (String "-" tail)) with (@None (string * string)).
    cbv iota. destruct tail as [|c t]; [reflexivity|].
    now apply (search_no_brace (String c t)). }
  now rewrite E.
Qed.

(** *** Lines of the two bodies *)

Lemma emit_note_record (n : Note) :
  emit_note n = record_line (fst n) (clamp_duration (snd n)).
Proof. now destruct n. Qed.

Lemma emit_c_note_cases (n : Note) :
  ((snd n <= 0)%Z /\ emit_c_note n = "") \/
  ((0 < snd n)%Z /\ emit_c_note n = record_line (fst n) (snd n)).
Proof.
  destruct n as [f d]. unfold emit_c_note. cbn [fst snd].
  destruct (Z.leb_spec d 0); [now left|]. right. split; [assumption|].
  destruct (Z.eqb_spec f 0) as [->|]; reflexivity.
Qed.

Lemma lines_c_notes (notes : list Note) (rest : string) :
  lines (fold_right (fun n r => emit_c_note n ++ r) rest notes)
    = (map (fun n => record_line (fst n) (snd n))
         (filter (fun n : Note => 0 < snd n)%Z notes) ++ lines rest)%list.
Proof.
  unfold lines. induction notes as [|n notes IH]; [reflexivity|].
  cbn [fold_right]. destruct (emit_c_note_cases n) as [[Hd ->] | [Hd ->]].
  - rewrite append_nil_l, filter_cons_False by lia. exact IH.
  - rewrite filter_cons_True by exact Hd. cbn [map].
    destruct (record_line_shape (fst n) (snd n)) as (a & Ha & ->).
    rewrite string_app_assoc, (lines_from_line a _ "" Ha), IH. reflexivity.
Qed.

Lemma parse_record_lines (notes acc : list Note) :
  Forall (fun n => 0 <= snd n)%Z notes ->
  for_each parse_line (map (fun n => record_line (fst n) (snd n)) notes) acc
    = Ok (acc ++ filter readable notes)%list.
Proof.
  intros H. revert acc. induction H as [|[f d] notes Hd _ IH]; intros acc.
  - simpl. now rewrite app_nil_r.
  - cbn [map for_each fst snd] in *. destruct (Z.le_gt_cases 0 f) as [Hf|Hf].
    + rewrite (parse_record_line acc f d Hf Hd). cbn [rbind].
      rewrite IH, filter_cons_True by exact Hf. now rewrite <- app_assoc.
    + rewrite (parse_signed_line acc f d) by lia. cbn [rbind].
      rewrite IH, filter_cons_False; [reflexivity|]. unfold readable. simpl. lia.
Qed.

(** *** What the parser returns *)

Lemma take_digits_digits (s : string) : all_digits (fst (take_digits s)) = true.
Proof.
  induction s as [|c s IH]; [reflexivity|]. simpl.
  destruct (is_digit c) eqn:E; [|reflexivity].
  destruct (take_digits s) as [ds r]. simpl in *. now rewrite E, IH.
Qed.

Lemma digits1_digits (s g r : string) : digits1 s = Some (g, r) -> all_digits g = true.
Proof.
  unfold digits1. pose proof (take_digits_digits s) as H.
  destruct (take_digits s) as [[|c ds] r']; [discriminate|].
  intros [= <- <-]. exact H.
Qed.

Lemma match_here_digits (s g1 g2 : string) :
  match_here s = Some (g1, g2) -> all_digits g1 = true /\ all_digits g2 = true.
Proof.
  unfold match_here. destruct (expect "{" s) as [s1|]; [|discriminate].
  cbn [mbind option_bind].
  destruct (digits1 (skip_spaces s1)) as [[a s2]|] eqn:E1; [|discriminate].
  cbn [mbind option_bind].
  destruct (expect "," (skip_spaces s2)) as [s3|]; [|discriminate].
  cbn [mbind option_bind].
  destruct (digits1 (skip_spaces s3)) as [[b s4]|] eqn:E2; [|discriminate].
  cbn [mbind option_bind].
  destruct (expect "}" (skip_spaces s4)) as [s5|]; [|discriminate].
  cbn [mbind option_bind].
  destruct (expect "," s5) as [s6|]; [|discriminate].
  cbn [mbind option_bind]. intros [= <- <-].
  split; [eapply digits1_digits; exact E1 | eapply digits1_digits; exact E2].
Qed.

Lemma search_digits (s g1 g2 : string) :
  search s = Some (g1, g2) -> all_digits g1 = true /\ all_digits g2 = true.
Proof.
  induction s as [|c s IH]; cbn [search].
  - destruct (match_here "") as [[a b]|] eqn:E; [|discriminate].
    intros [= <- <-]. now apply (match_here_digits "").
  - destruct (match_here (String c s)) as [[a b]|] eqn:E; [|exact IH].
    intros [= <- <-]. now apply (match_here_digits (String c s)).
Qed.

Lemma digit_char (c : ascii) (d : option Decimal.uint) :
  is_digit c = true -> d <> None -> uint_of_char c d <> None.
Proof.
  intros Hc Hd. destruct d as [u|]; [|congruence].
  destruct c as [[] [] [] [] [] [] [] []]; try discriminate Hc; discriminate.
Qed.

Lemma py_int_of_digits_total (g : string) :
  all_digits g = true -> exists n, py_int_of_digits g = Ok n /\ (0 <= n)%Z.
Proof.
  intros Hg. unfold py_int_of_digits.
  assert (H : NilEmpty.uint_of_string g <> None).
  { induction g as [|c g IH]; [discriminate|]. simpl in *.
    apply andb_prop in Hg as [Hc Hg]. apply digit_char; [exact Hc | now apply IH]. }
  destruct (NilEmpty.uint_of_string g) as [u|]; [|congruence].
  eexists. split; [reflexivity|]. unfold Z.of_uint. apply N2Z.is_nonneg.
Qed.

Lemma parse_line_total (acc : list Note) (line : string) :
  parse_line acc line = Ok acc \/
  exists f d, parse_line acc line = Ok (acc ++ [(f, d)])%list /\ (0 <= f)%Z /\ (0 <= d)%Z.
Proof.
  unfold parse_line. destruct (search line) as [[g1 g2]|] eqn:E; [|now left].
  right. apply search_digits in E as [H1 H2].
  destruct (py_int_of_digits_total g1 H1) as (f & -> & Hf).
  destruct (py_int_of_digits_total g2 H2) as (d & -> & Hd).
  exists f, d. now repeat split.
Qed.

Lemma parse_lines_total (ls : list string) (acc : list Note) :
  Forall (fun n => 0 <= fst n /\ 0 <= snd n)%Z acc ->
  exists notes, for_each parse_line ls acc = Ok notes /\
    Forall (fun n => 0 <= fst n /\ 0 <= snd n)%Z notes /\
    (length notes <= length acc + length ls)%nat.
Proof.
  revert acc. induction ls as [|l ls IH]; intros acc Hacc; cbn [for_each].
  - exists acc. split; [reflexivity|]. split; [exact Hacc | lia].
  - destruct (parse_line_total acc l) as [-> | (f & d & -> & Hf & Hd)]; cbn [rbind].
    + destruct (IH acc Hacc) as (notes & -> & H1 & H2).
      exists notes. split; [reflexivity|]. split; [exact H1 | simpl; lia].
    + destruct (IH (acc ++ [(f, d)])%list) as (notes & -> & H1 & H2).
      { apply Forall_app. split; [exact Hacc|]. now repeat constructor. }
      exists notes. split; [reflexivity|]. split; [exact H1|].
      rewrite length_app in H2. simpl in *. lia.
Qed.

Lemma clamp_duration_idem (d : Z) :
  clamp_duration (clamp_duration d) = clamp_duration d.
Proof. apply clamp_duration_id, clamp_duration_range. Qed.

End HeaderMore.

(** ** Further statements about the header writers and the parser *)

Section HeaderExtras.
Import Quantizer Header HeaderSpec MidiHeader MoreSpec.

Lemma filter_readable_clamp (notes : list Note) :
  filter readable (map clamp_note notes) = map clamp_note (filter readable notes).
Proof.
  induction notes as [|n notes IH]; [reflexivity|]. cbn [map].
  destruct (decide (readable n)) as [H|H].
  - rewrite !filter_cons_True by exact H. cbn [map]. now rewrite IH.
  - rewrite !filter_cons_False by exact H. exact IH.
Qed.

Lemma filter_written (notes : list Note) :
  filter readable (filter (fun n : Note => 0 < snd n) notes) = filter written notes.
Proof.
  induction notes as [|n notes IH]; [reflexivity|].
  rewrite (filter_cons (fun n : Note => 0 < snd n)), (filter_cons written).
  destruct (decide (0 < snd n)) as [Hd|Hd].
  - rewrite (filter_cons readable), IH.
    destruct (decide (readable n)) as [Hf|Hf], (decide (written n)) as [Hw|Hw];
      try reflexivity.
    + exfalso. apply Hw. now split.
    + exfalso. apply Hf. apply Hw.
  - rewrite IH. destruct (decide (written n)) as [Hw|Hw]; [|reflexivity].
    exfalso. apply Hd. apply Hw.
Qed.

Lemma parse_emit_readable (notes : list Note) :
  parse_header (emit_header notes default_guard)
    = Ok (map clamp_note (filter readable notes)).
Proof.
  unfold parse_header.
  rewrite lines_emit_header by (vm_compute; reflexivity).
  rewrite for_each_app.
  rewrite parse_unmatched by (vm_compute; reflexivity). cbn [rbind].
  rewrite for_each_app.
  assert (E : map emit_note notes
              = map (fun n => record_line (fst n) (snd n)) (map clamp_note notes)).
  { rewrite map_map. apply map_ext. intros n. apply emit_note_record. }
  rewrite E, parse_record_lines.
  - cbn [rbind app]. rewrite filter_readable_clamp.
    apply parse_unmatched. vm_compute. reflexivity.
  - apply Forall_forall. intros n Hn.
    apply list_elem_of_fmap in Hn as (m & -> & _). simpl.
    apply clamp_duration_range.
Qed.

(** X15: parsing the text [emit_header] writes returns, in order, the notes
    whose frequency is not negative, each duration clamped into
    [0 .. 65535]: a negative duration reads back as 0, one above 65535 as
    65535, and a record with a negative frequency is not read back at all. *)
Theorem X15_parse_emit_header_clamps (notes : list Note) :
  parse_header (emit_header notes default_guard)
    = Ok (map clamp_note (filter readable notes)).
Proof. apply parse_emit_readable. Qed.

(** X16: the parser of [simplify_header] reads the header that
    [midi_to_buzzer] writes: it returns, in order, the notes with a positive
    duration and a frequency that is not negative, unchanged; the notes
    [emit_c_header] skips (duration zero or less) are the only ones lost. *)
Theorem X16_parse_reads_emit_c_header (notes : list Note) :
  parse_header (emit_c_header notes) = Ok (filter written notes).
Proof.
  unfold parse_header, emit_c_header, lines at 1.
  rewrite (lines_from_app c_header_prologue _ EmptyString) by (vm_compute; reflexivity).
  fold (lines c_header_prologue). rewrite lines_c_notes.
  rewrite for_each_app.
  rewrite parse_unmatched by (vm_compute; reflexivity). cbn [rbind].
  rewrite for_each_app, parse_record_lines.
  - cbn [rbind app]. rewrite filter_written.
    apply parse_unmatched. vm_compute. reflexivity.
  - apply Forall_forall. intros n Hn.
    apply list_elem_of_filter in Hn as [Hn _]. lia.
Qed.

(** X17: [parse_header] never raises on a plain text (printable ASCII,
    tabs and line feeds, no line longer than the 4300 characters [int]
    converts at most): every group the pattern captures is a string of
    digits that [int] accepts.  It returns at most one note per line, and
    no negative number. *)
Theorem X17_parse_header_total (text : string) :
  plain_text text = true ->
  exists notes,
    parse_header text = Ok notes /\
    Forall (fun n => 0 <= fst n /\ 0 <= snd n) notes /\
    (length notes <= length (lines text))%nat.
Proof.
  intros _. unfold parse_header.
  destruct (parse_lines_total (lines text) []) as (notes & H1 & H2 & H3);
    [constructor|].
  exists notes. now repeat split.
Qed.

Lemma X17_parse_header_total_witness :
  exists notes,
    parse_header (record_line 440 128 ++ "};" ++ nl ++ record_line 0 64)%string
      = Ok notes /\
    Forall (fun n => 0 <= fst n /\ 0 <= snd n) notes /\
    (length notes
     <= length (lines (record_line 440 128 ++ "};" ++ nl ++ record_line 0 64)%string))%nat.
Proof.
  apply (X17_parse_header_total
           (record_line 440 128 ++ "};" ++ nl ++ record_line 0 64)%string).
  vm_compute. reflexivity.
Defined.

(** X18: a text without any opening brace holds no record: [parse_header]
    returns the empty list. *)
Theorem X18_no_brace_no_notes (text : string) :
  no_brace text = true -> parse_header text = Ok [].
Proof.
  intros H. unfold parse_header, lines. apply parse_unmatched.
  now apply lines_from_no_brace.
Qed.

Lemma X18_no_brace_no_notes_witness :
  parse_header "#define MELODY_LEN 12 /* 440, 128 */"%string = Ok [].
Proof.
  apply (X18_no_brace_no_notes "#define MELODY_LEN 12 /* 440, 128 */"%string).
  reflexivity.
Defined.

(** X19: a header that [emit_header] wrote is a fixed point of reading and
    writing: for notes without a negative frequency, emitting what
    [parse_header] reads from the emitted text gives the same text again. *)
Theorem X19_emit_parse_emit (notes : list Note) :
  Forall readable notes ->
  exists parsed,
    parse_header (emit_header notes default_guard) = Ok parsed /\
    emit_header parsed default_guard = emit_header notes default_guard.
Proof.
  intros H. exists (map clamp_note notes). split.
  - rewrite parse_emit_readable. f_equal. f_equal.
    induction H as [|n notes Hn _ IH]; [reflexivity|].
    now rewrite filter_cons_True, IH by exact Hn.
  - unfold emit_header. f_equal. clear H.
    induction notes as [|n notes IH]; [reflexivity|]. cbn [map fold_right].
    rewrite IH. f_equal. rewrite !emit_note_record. unfold clamp_note. cbn [fst snd].
    now rewrite clamp_duration_idem.
Qed.

Lemma X19_emit_parse_emit_witness :
  exists parsed,
    parse_header (emit_header [(440, 70000); (0, -5); (880, 12)] default_guard) = Ok parsed /\
    emit_header parsed default_guard
      = emit_header [(440, 70000); (0, -5); (880, 12)] default_guard.
Proof.
  apply (X19_emit_parse_emit [(440, 70000); (0, -5); (880, 12)]).
  repeat constructor; unfold readable; simpl; lia.
Defined.

End HeaderExtras.

(** * The two drivers *)

Section MainMore.
Import PyNum Quantizer QuantizerSpec Header HeaderSpec MoreSpec SimplifyHeaderMain.

Lemma median_in (durs : list Z) :
  durs <> [] ->
  default 0 (Reducer.sort_by id durs !! (length (Reducer.sort_by id durs) / 2)%nat)
    ∈ durs.
Proof.
  intros Hne. set (s := Reducer.sort_by id durs).
  assert (Hlen : length s = length durs).
  { unfold s. apply Permutation_length, sort_by_perm. }
  assert (Hlt : (length s / 2 < length s)%nat).
  { apply Nat.div_lt; [|lia]. rewrite Hlen. destruct durs; [congruence | simpl; lia]. }
  destruct (lookup_lt_is_Some_2 s _ Hlt) as [m Hm]. rewrite Hm. simpl.
  apply list_elem_of_lookup_2 in Hm. unfold s in Hm.
  now apply elem_of_sort_by in Hm.
Qed.

Lemma estimate_unit_cases (notes : list Note) :
  ((forall n, n ∈ notes -> snd n <= 0) /\ estimate_unit notes = 128) \/
  (exists m, m ∈ map snd notes /\ 0 < m /\
     estimate_unit notes = py_round (inject_Z (m * 4) / 8)).
Proof.
  unfold estimate_unit. cbv zeta.
  destruct (filter (fun d => 0 < d) (map snd notes)) as [|d durs] eqn:E.
  - left. split; [|reflexivity]. intros n Hn.
    destruct (Z.le_gt_cases (snd n) 0) as [H|H]; [exact H|]. exfalso.
    assert (Hin : snd n ∈ filter (fun d => 0 < d) (map snd notes)).
    { apply list_elem_of_filter. split; [lia | now apply list_elem_of_fmap_2]. }
    rewrite E in Hin. now apply elem_of_nil in Hin.
  - right. pose proof (median_in (d :: durs) ltac:(discriminate)) as Hm.
    rewrite <- E in Hm at 3. apply list_elem_of_filter in Hm as [Hpos Hin].
    eexists. split; [exact Hin|]. split; [exact Hpos | reflexivity].
Qed.

Lemma half_unit_positive (m : Z) : 2 <= m -> 1 <= py_round (inject_Z (m * 4) / 8).
Proof.
  intros Hm. rewrite <- (py_round_inject_Z 1). apply py_round_monotone.
  apply Qle_shift_div_l; [reflexivity|].
  change (inject_Z 1 * 8)%Q with (inject_Z 8). rewrite <- Zle_Qle. lia.
Qed.

Lemma simplify_zero_unit (notes : list Note) (min_ms max_notes : Z) :
  notes <> [] ->
  SimplifyHeader.simplify_notes notes 0 min_ms max_notes = Raise ZeroDivisionError.
Proof.
  intros Hne. destruct notes as [|x notes]; [congruence|].
  unfold SimplifyHeader.simplify_notes, passes. cbv zeta.
  pose proof (merge_nonempty x notes) as Hm.
  destruct (merge (x :: notes)) as [|[f d] m]; [congruence|].
  rewrite (for_each_raises_at_once _ ZeroDivisionError); [reflexivity|].
  unfold quant_step. now rewrite (quantize_zero _ _ (Qeq_refl 0)).
Qed.

Lemma parsed_nonneg (text : string) (notes : list Note) :
  parse_header text = Ok notes -> Forall (fun n => 0 <= fst n /\ 0 <= snd n) notes.
Proof.
  intros H. unfold parse_header in H.
  destruct (parse_lines_total (lines text) []) as (notes' & H1 & H2 & _);
    [constructor|].
  rewrite H in H1. now injection H1 as <-.
Qed.

End MainMore.

Section MainExtras.
Import PyNum Quantizer QuantizerSpec Header HeaderSpec MoreSpec SimplifyHeaderMain.
Import Reducer TempoSpec.

(** X20: on a plain text whose durations add up to less than [2^52], when
    no positive duration of the parsed header is below 2 ms, the unit
    [main] estimates is at least 1 and [main] runs through: the simplified
    melody has at most 300 entries, and reading the header [main] writes
    gives that melody with its durations clamped into [0 .. 65535]. *)
Theorem X20_main_runs_through (text : string) (notes : list Note) :
  plain_text text = true ->
  parse_header text = Ok notes ->
  sum_durations notes < 2 ^ 52 ->
  (forall n, n ∈ notes -> 0 < snd n -> 2 <= snd n) ->
  exists simple,
    1 <= estimate_unit notes /\
    SimplifyHeader.simplify_notes notes (estimate_unit notes) 80 300 = Ok simple /\
    (length simple <= 300)%nat /\
    main text = Ok (emit_header simple default_guard) /\
    parse_header (emit_header simple default_guard) = Ok (map clamp_note simple).
Proof.
  intros _ Hparse _ Hdur.
  assert (Hunit : 1 <= estimate_unit notes).
  { destruct (estimate_unit_cases notes) as [[_ ->] | (m & Hin & Hpos & ->)]; [lia|].
    apply half_unit_positive. apply list_elem_of_fmap in Hin as (n & -> & Hn).
    now apply Hdur. }
  set (unit := estimate_unit notes) in *.
  assert (Hnz : ~ (inject_Z unit == 0)%Q) by (apply inject_Z_nonzero; lia).
  assert (H : exists simple,
            SimplifyHeader.simplify_notes notes unit 80 300 = Ok simple /\
            (length simple <= 300)%nat /\
            forall x, x ∈ simple -> fst x = 0 \/ fst x ∈ map fst notes).
  { unfold SimplifyHeader.simplify_notes. destruct notes as [|x notes].
    - exists []. split; [reflexivity|]. split; [simpl; lia|].
      intros y Hy. now apply elem_of_nil in Hy.
    - destruct (passes_size x notes (inject_Z unit) 80 300 Hnz) as (out & Hout & _ & _ & Hf).
      destruct (count_bound_from_one (x :: notes) (inject_Z unit) 80 300 Hnz ltac:(lia))
        as (out' & Hout' & Hlen).
      rewrite Hout in Hout'. injection Hout' as <-.
      exists out. split; [exact Hout|]. split; [lia | exact Hf]. }
  destruct H as (simple & Hs & Hlen & Hfreq).
  exists simple. split; [exact Hunit|]. split; [exact Hs|]. split; [exact Hlen|].
  split.
  - unfold main. rewrite Hparse. cbn [rbind]. fold unit. now rewrite Hs.
  - rewrite parse_emit_readable. f_equal. f_equal.
    pose proof (parsed_nonneg text notes Hparse) as Hnn.
    assert (Hr : Forall readable simple).
    { apply Forall_forall. intros x Hx. unfold readable.
      destruct (Hfreq x Hx) as [->|Hin]; [lia|].
      apply list_elem_of_fmap in Hin as (y & -> & Hy).
      rewrite Forall_forall in Hnn. now apply Hnn. }
    clear -Hr. induction Hr as [|n l Hn _ IH]; [reflexivity|].
    now rewrite filter_cons_True, IH by exact Hn.
Qed.

Lemma X20_main_runs_through_witness :
  exists simple,
    1 <= estimate_unit [(440, 250); (0, 120); (880, 260)] /\
    SimplifyHeader.simplify_notes [(440, 250); (0, 120); (880, 260)]
      (estimate_unit [(440, 250); (0, 120); (880, 260)]) 80 300 = Ok simple /\
    (length simple <= 300)%nat /\
    main (emit_header [(440, 250); (0, 120); (880, 260)] default_guard)
      = Ok (emit_header simple default_guard) /\
    parse_header (emit_header simple default_guard) = Ok (map clamp_note simple).
Proof.
  apply (X20_main_runs_through
           (emit_header [(440, 250); (0, 120); (880, 260)] default_guard)
           [(440, 250); (0, 120); (880, 260)]).
  - vm_compute. reflexivity.
  - vm_compute. reflexivity.
  - vm_compute. reflexivity.
  - intros n Hn _.
    repeat (apply elem_of_cons in Hn as [->|Hn]; [simpl; lia|]).
    now apply elem_of_nil in Hn.
Defined.

(** X21: on a plain text, when the parsed header has a positive duration
    and none above 1 ms, the estimated unit is [round(4 / 8) = 0] and
    [main] stops with [ZeroDivisionError] in the quantization pass. *)
Theorem X21_main_divides_by_zero (text : string) (notes : list Note) :
  plain_text text = true ->
  parse_header text = Ok notes ->
  (exists n, n ∈ notes /\ 0 < snd n) ->
  (forall n, n ∈ notes -> snd n <= 1) ->
  estimate_unit notes = 0 /\ main text = Raise ZeroDivisionError.
Proof.
  intros _ Hparse (n0 & Hn0 & Hpos0) Hmax.
  assert (Hunit : estimate_unit notes = 0).
  { destruct (estimate_unit_cases notes) as [[Hall _] | (m & Hin & Hpos & ->)].
    - specialize (Hall n0 Hn0). lia.
    - apply list_elem_of_fmap in Hin as (n & -> & Hn). specialize (Hmax n Hn).
      replace (snd n) with 1 by lia. reflexivity. }
  split; [exact Hunit|]. unfold main. rewrite Hparse. cbn [rbind].
  rewrite Hunit, simplify_zero_unit; [reflexivity|].
  intros ->. now apply elem_of_nil in Hn0.
Qed.

Lemma X21_main_divides_by_zero_witness :
  estimate_unit [(440, 1); (0, 1); (880, 0)] = 0 /\
  main (emit_header [(440, 1); (0, 1); (880, 0)] default_guard)
    = Raise ZeroDivisionError.
Proof.
  apply (X21_main_divides_by_zero
           (emit_header [(440, 1); (0, 1); (880, 0)] default_guard)
           [(440, 1); (0, 1); (880, 0)]).
  - vm_compute. reflexivity.
  - vm_compute. reflexivity.
  - exists (440, 1). split; [now left | simpl; lia].
  - intros n Hn.
    repeat (apply elem_of_cons in Hn as [->|Hn]; [simpl; lia|]).
    now apply elem_of_nil in Hn.
Defined.

End MainExtras.

(** * How far the quantizer moves the total duration *)

Section QuantizerDrift.
Import PyNum Quantizer QuantizerSpec TempoSpec.

Lemma merge_from_nonneg (notes acc : list Note) :
  Forall (fun n => 0 <= snd n) acc -> Forall (fun n => 0 <= snd n) notes ->
  Forall (fun n => 0 <= snd n) (fold_left merge_step notes acc).
Proof.
  intros Hacc Hn. revert acc Hacc.
  induction Hn as [|[f d] notes Hd _ IH]; intros acc Hacc; cbn [fold_left]; [exact Hacc|].
  apply IH. simpl in Hd.
  destruct (merge_step_cases acc f d) as [(l' & ld & -> & ->) | [-> _]].
  - apply Forall_app in Hacc as [H1 H2]. apply Forall_app. split; [exact H1|].
    apply Forall_inv in H2. simpl in H2. constructor; [simpl; lia | constructor].
  - apply Forall_app. split; [exact Hacc|]. now repeat constructor.
Qed.

(** One quantized duration lies within one unit of the duration it stands
    for. *)
Lemma quantum_near (u d : Z) :
  0 < u -> 0 <= d -> - u <= quantum (inject_Z u) d - d <= u.
Proof.
  intros Hu Hd. unfold quantum. cbv zeta. rewrite py_int_product.
  destruct (py_round_nearest (inject_Z d / inject_Z u)) as [[H1 H2] _].
  set (r := py_round (inject_Z d / inject_Z u)) in *.
  assert (HU : (0 < inject_Z u)%Q).
  { change 0%Q with (inject_Z 0). now rewrite <- Zlt_Qlt. }
  assert (Ediv : (inject_Z d / inject_Z u * inject_Z u == inject_Z d)%Q).
  { field. apply inject_Z_nonzero. lia. }
  assert (Hlo : ((inject_Z r - (1 # 2)) * inject_Z u <= inject_Z d)%Q).
  { rewrite <- Ediv. apply Qmult_le_compat_r; [exact H1 | now apply Qlt_le_weak]. }
  assert (Hhi : (inject_Z d <= (inject_Z r + (1 # 2)) * inject_Z u)%Q).
  { rewrite <- Ediv. apply Qmult_le_compat_r; [exact H2 | now apply Qlt_le_weak]. }
  assert (Zlo : 2 * (r * u) - u <= 2 * d).
  { rewrite Zle_Qle. unfold Z.sub.
    rewrite !inject_Z_plus, inject_Z_opp, !inject_Z_mult.
    change (inject_Z 2) with 2%Q.
    assert (E : ((inject_Z r - (1 # 2)) * inject_Z u
                 == inject_Z r * inject_Z u - (1 # 2) * inject_Z u)%Q) by ring.
    rewrite E in Hlo. lra. }
  assert (Zhi : 2 * d <= 2 * (r * u) + u).
  { rewrite Zle_Qle.
    rewrite !inject_Z_plus, !inject_Z_mult.
    change (inject_Z 2) with 2%Q.
    assert (E : ((inject_Z r + (1 # 2)) * inject_Z u
                 == inject_Z r * inject_Z u + (1 # 2) * inject_Z u)%Q) by ring.
    rewrite E in Hhi. lra. }
  destruct (Z.leb_spec r 0) as [Hr|Hr]; nia.
Qed.

Lemma quantized_total_near (u : Z) (merged : list Note) :
  0 < u -> Forall (fun n => 0 <= snd n) merged ->
  - (u * Z.of_nat (length merged))
    <= quantized_total (inject_Z u) merged - sum_durations merged
    <= u * Z.of_nat (length merged).
Proof.
  intros Hu H. unfold quantized_total, sum_durations.
  induction H as [|[f d] merged Hd _ IH]; [simpl; lia|].
  cbn [map fold_right length snd] in *.
  pose proof (quantum_near u d Hu Hd). lia.
Qed.

(** X23: for a positive integer unit and durations that are not negative
    and add up to less than [2^52] (where the double of [d / unit_ms]
    rounds as the exact quotient does), [simplify_header]'s quantizer moves
    the total duration by at most one unit per merged event, whatever
    [min_ms] and [max_notes]: absorbing and capping lose nothing, only the
    rounding of each merged event counts. *)
Theorem X23_total_duration_drift
    (notes : list Note) (unit_ms min_ms max_notes : Z) :
  0 < unit_ms -> Forall (fun n => 0 <= snd n) notes ->
  sum_durations notes < 2 ^ 52 ->
  exists out,
    SimplifyHeader.simplify_notes notes unit_ms min_ms max_notes = Ok out /\
    - (unit_ms * Z.of_nat (length (merge notes)))
      <= sum_durations out - sum_durations notes
      <= unit_ms * Z.of_nat (length (merge notes)).
Proof.
  intros Hu Hn _. unfold SimplifyHeader.simplify_notes. destruct notes as [|x notes].
  - exists []. split; [reflexivity|]. simpl. lia.
  - assert (Hnz : unit_ms <> 0) by lia.
    destruct (passes_sum (x :: notes) (inject_Z unit_ms) min_ms max_notes
                (inject_Z_nonzero _ Hnz)) as (out & -> & Hsum).
    exists out. split; [reflexivity|]. rewrite Hsum.
    destruct (merge_spec (x :: notes)) as (_ & <- & _).
    apply quantized_total_near; [exact Hu|].
    apply merge_from_nonneg; [constructor | exact Hn].
Qed.

Lemma X23_total_duration_drift_witness :
  exists out,
    SimplifyHeader.simplify_notes [(440, 200); (0, 10); (440, 203)] 128 80 300 = Ok out /\
    - (128 * Z.of_nat (length (merge [(440, 200); (0, 10); (440, 203)])))
      <= sum_durations out - sum_durations [(440, 200); (0, 10); (440, 203)]
      <= 128 * Z.of_nat (length (merge [(440, 200); (0, 10); (440, 203)])).
Proof.
  apply (X23_total_duration_drift [(440, 200); (0, 10); (440, 203)] 128 80 300).
  - lia.
  - repeat constructor; simpl; lia.
  - vm_compute. reflexivity.
Defined.

End QuantizerDrift.
